(** * Belief revision agent: formulas, CNF conversion, resolution, contraction

    A shallow embedding of [belief_revision_agent.py] and [resolution.py].

    - [Literal], [Clause], [CNF]: the value classes of the source.  A Python
      [set] of hashable values is a finite set whose iteration order is not
      part of its value, so clauses are [gset Literal] and clause collections
      are [gset Clause].
    - [Formula]: the six subclasses of [Formula] as one inductive type.
    - [BeliefBase]: the insertion-ordered [dict] from formulas to priorities,
      as an association list whose keys are pairwise different under the
      source's [__eq__].
*)

From stdpp Require Import gmap strings list sets fin_sets.
From Stdlib Require Import ZArith Lia.

#[local] Set Warnings "-clear-no-such-hyp".

Local Open Scope Z_scope.
Local Open Scope nat_scope.

(** ** Literal *)

Record Literal := mkLiteral { name : string; negated : bool }.

#[global] Instance Literal_eq_dec : EqDecision Literal.
Proof. solve_decision. Defined.

#[global] Instance Literal_countable : Countable Literal.
Proof.
  refine (inj_countable' (λ l, (name l, negated l))
                         (λ p, mkLiteral p.1 p.2) _).
  by intros [].
Defined.

(** [Literal.negate] *)
Definition negate (l : Literal) : Literal :=
  mkLiteral (name l) (negb (negated l)).

(** ** Clause *)

Abbreviation Clause := (gset Literal).

(** [Clause.add_literal] *)
Definition add_literal (literal : Literal) (c : Clause) : Clause :=
  {[ literal ]} ∪ c.

(** [Clause.is_empty] *)
Definition is_empty (c : Clause) : bool := Nat.eqb (size c) 0.

(** [Clause.is_tautology]: some literal of the clause has its negation in
    the clause. *)
Definition is_tautology (c : Clause) : bool :=
  existsb (λ literal, bool_decide (negate literal ∈ c)) (elements c).

(** ** CNF *)

Abbreviation CNF := (gset Clause).

(** [CNF.add_clause]: a tautology is not added. *)
Definition add_clause (clause : Clause) (clauses : CNF) : CNF :=
  if negb (is_tautology clause) then {[ clause ]} ∪ clauses else clauses.

(** ** Formula *)

Inductive Formula :=
| Atom (name : string)
| Negation (formula : Formula)
| Conjunction (left right : Formula)
| Disjunction (left right : Formula)
| Implication (antecedent consequent : Formula)
| Biconditional (left right : Formula).

(** [__eq__] of the six classes: a different class gives [False]; the
    symmetric connectives compare their children in both orders. *)
Fixpoint formula_eqb (a b : Formula) : bool :=
  match a, b with
  | Atom n, Atom m => bool_decide (n = m)
  | Negation f, Negation g => formula_eqb f g
  | Conjunction l r, Conjunction l' r' =>
      (formula_eqb l l' && formula_eqb r r') ||
      (formula_eqb l r' && formula_eqb r l')
  | Disjunction l r, Disjunction l' r' =>
      (formula_eqb l l' && formula_eqb r r') ||
      (formula_eqb l r' && formula_eqb r l')
  | Implication x y, Implication x' y' =>
      formula_eqb x x' && formula_eqb y y'
  | Biconditional l r, Biconditional l' r' =>
      (formula_eqb l l' && formula_eqb r r') ||
      (formula_eqb l r' && formula_eqb r l')
  | _, _ => false
  end.

(** The body of [Disjunction.to_cnf] after its two recursive calls: every
    pair of a left and a right clause gives the union of their literals,
    kept unless it is a tautology. *)
Definition distribute (left_cnf right_cnf : CNF) : CNF :=
  list_to_set
    (left_clause ← elements left_cnf;
     right_clause ← elements right_cnf;
     let new_clause := left_clause ∪ right_clause in
     if is_tautology new_clause then [] else [new_clause]).

(** [to_cnf].  [Negation.to_cnf] inspects the class of its child and, for a
    compound child, builds a new formula and converts that one; the
    recursion is therefore on the child of the negation, written here as
    the second function [neg_to_cnf formula = to_cnf (Negation formula)].
    The equations of the source are the lemmas [to_cnf_Negation_*] below. *)
Fixpoint to_cnf (f : Formula) : CNF :=
  match f with
  | Atom n => {[ {[ mkLiteral n false ]} ]}
  | Negation g => neg_to_cnf g
  | Conjunction l r => to_cnf l ∪ to_cnf r
  | Disjunction l r => distribute (to_cnf l) (to_cnf r)
  | Implication a c => distribute (neg_to_cnf a) (to_cnf c)
  | Biconditional l r =>
      distribute (neg_to_cnf l) (to_cnf r) ∪
      distribute (neg_to_cnf r) (to_cnf l)
  end
with neg_to_cnf (f : Formula) : CNF :=
  match f with
  | Atom n => {[ {[ mkLiteral n true ]} ]}
  | Negation g => to_cnf g
  | Conjunction l r => distribute (neg_to_cnf l) (neg_to_cnf r)
  | Disjunction l r => neg_to_cnf l ∪ neg_to_cnf r
  | Implication a c => to_cnf a ∪ neg_to_cnf c
  | Biconditional l r =>
      distribute (to_cnf l ∪ neg_to_cnf r) (neg_to_cnf l ∪ to_cnf r)
  end.

(** ** Truth-table semantics (the yardstick of the claims) *)

Definition assignment := string → bool.

Fixpoint eval (v : assignment) (f : Formula) : bool :=
  match f with
  | Atom n => v n
  | Negation g => negb (eval v g)
  | Conjunction l r => eval v l && eval v r
  | Disjunction l r => eval v l || eval v r
  | Implication a c => implb (eval v a) (eval v c)
  | Biconditional l r => eqb (eval v l) (eval v r)
  end.

Definition eval_literal (v : assignment) (l : Literal) : bool :=
  if negated l then negb (v (name l)) else v (name l).

(** A clause is the disjunction of its literals, a CNF the conjunction of
    its clauses. *)
Definition eval_clause (v : assignment) (c : Clause) : bool :=
  existsb (eval_literal v) (elements c).

Definition eval_cnf (v : assignment) (s : CNF) : bool :=
  forallb (eval_clause v) (elements s).

Definition satisfiable (s : CNF) : Prop :=
  ∃ v, eval_cnf v s = true.

Definition tautology (f : Formula) : Prop :=
  ∀ v, eval v f = true.

(** ** resolution.py *)

(** [resolve]: one resolvent for every pair of literals with the same name
    and opposite signs; the two inner loops copy each clause without the
    literal resolved upon. *)
Definition resolve (clause1 clause2 : Clause) : list Clause :=
  lit1 ← elements clause1;
  lit2 ← elements clause2;
  if bool_decide (name lit1 = name lit2) &&
     negb (eqb (negated lit1) (negated lit2))
  then
    let resolvent := (clause1 ∖ {[ lit1 ]}) ∪ (clause2 ∖ {[ lit2 ]}) in
    if is_tautology resolvent then [] else [resolvent]
  else [].

(** The list [pairs] of one round. *)
Definition pairs (clauses new_clauses : CNF) : list (Clause * Clause) :=
  c1 ← elements clauses;
  c2 ← elements new_clauses;
  if bool_decide (c1 ≠ c2) then [(c1, c2)] else [].

(** All resolvents of one round, in the order the loops meet them. *)
Definition round_resolvents (clauses new_clauses : CNF) : list Clause :=
  p ← pairs clauses new_clauses; resolve p.1 p.2.

(** The [while True] loop of [resolution], one round per unit of fuel;
    [None] is "still running".  A round returns [True] at its first empty
    resolvent, so it returns [True] exactly when some resolvent of the
    round is empty; otherwise the resolvents not yet in [clauses] form the
    next [new_clauses]. *)
Fixpoint resolution_loop (fuel : nat) (clauses new_clauses : CNF)
  : option bool :=
  match fuel with
  | O => None
  | S fuel' =>
      let resolvents := round_resolvents clauses new_clauses in
      if existsb is_empty resolvents then Some true
      else
        let new_clauses' : CNF :=
          list_to_set (filter (λ resolvent, resolvent ∉ clauses) resolvents) in
        if bool_decide (new_clauses' = ∅) ||
           bool_decide (new_clauses' ⊆ clauses)
        then Some false
        else resolution_loop fuel' (clauses ∪ new_clauses') new_clauses'
  end.

(** Every clause the loop can hold is a set of literals of the input, so
    the loop has returned after at most [2 ^ n + 1] rounds, [n] the number
    of literals of the input (lemma [resolution_loop_total]). *)
Definition literals_of (clauses : CNF) : gset Literal := ⋃ (elements clauses).

Definition resolution_rounds (clauses : CNF) : nat :=
  S (2 ^ size (literals_of clauses)).

(** [resolution]: both [clauses] and [new_clauses] start as a copy of the
    input. *)
Definition resolution (clauses : CNF) : bool :=
  match resolution_loop (resolution_rounds clauses) clauses clauses with
  | Some answer => answer
  | None => false
  end.

(** ** BeliefBase *)

(** [self.beliefs]: a [dict], in insertion order. *)
Abbreviation BeliefBase := (list (Formula * Z)).

(** [key in d] *)
Definition dict_mem (k : Formula) (d : BeliefBase) : bool :=
  existsb (λ e, formula_eqb e.1 k) d.

(** [d.get(k)] *)
Fixpoint dict_get (k : Formula) (d : BeliefBase) : option Z :=
  match d with
  | [] => None
  | (k', v) :: d' => if formula_eqb k' k then Some v else dict_get k d'
  end.

(** [d[k] = v]: an equal key keeps its place (and the stored key object)
    and gets the new value, a new key goes to the end. *)
Fixpoint dict_set (k : Formula) (v : Z) (d : BeliefBase) : BeliefBase :=
  match d with
  | [] => [(k, v)]
  | (k', v') :: d' =>
      if formula_eqb k' k then (k', v) :: d' else (k', v') :: dict_set k v d'
  end.

(** [del d[k]] *)
Fixpoint dict_del (k : Formula) (d : BeliefBase) : BeliefBase :=
  match d with
  | [] => []
  | (k', v') :: d' =>
      if formula_eqb k' k then d' else (k', v') :: dict_del k d'
  end.

(** [d1 == d2] on dicts: as many entries, and every key of [d1] is a key of
    [d2] with an equal value. *)
Definition dict_eqb (d1 d2 : BeliefBase) : bool :=
  Nat.eqb (length d1) (length d2) &&
  forallb (λ e, match dict_get e.1 d2 with
                | Some v => Z.eqb e.2 v
                | None => false
                end) d1.

(** [set(d1.keys()).issubset(set(d2.keys()))] *)
Definition keys_issubset (d1 d2 : BeliefBase) : bool :=
  forallb (λ e, dict_mem e.1 d2) d1.

(** The invariant of a [dict]: no two entries have equal keys. *)
Fixpoint dict_wf (d : BeliefBase) : Prop :=
  match d with
  | [] => True
  | e :: d' => dict_mem e.1 d' = false ∧ dict_wf d'
  end.

Definition add_belief (formula : Formula) (priority : Z) (B : BeliefBase)
  : BeliefBase := dict_set formula priority B.

Definition remove_belief (formula : Formula) (B : BeliefBase) : BeliefBase :=
  if dict_mem formula B then dict_del formula B else B.

Definition get_beliefs (B : BeliefBase) : list Formula := B.*1.

Definition get_priority (formula : Formula) (B : BeliefBase) : Z :=
  default 0%Z (dict_get formula B).

(** The clause set [entails] hands to [resolution]. *)
Definition all_clauses (B : BeliefBase) (formula : Formula) : CNF :=
  ⋃ (to_cnf <$> B.*1) ∪ to_cnf (Negation formula).

Definition entails (B : BeliefBase) (formula : Formula) : bool :=
  resolution (all_clauses B formula).

(** The subset of [all_beliefs] that the bits of [i] select, built by
    assignment into an empty dict, [j] running over [range(n)]. *)
Definition subset_upto (all_beliefs : list (Formula * Z)) (i n : nat)
  : BeliefBase :=
  foldl (λ subset j,
           if Nat.testbit i j then
             match all_beliefs !! j with
             | Some (k, v) => dict_set k v subset
             | None => subset
             end
           else subset)
        [] (seq 0 n).

Definition subsets_of (all_beliefs : list (Formula * Z)) : list BeliefBase :=
  (λ i, subset_upto all_beliefs i (length all_beliefs))
    <$> seq 0 (2 ^ length all_beliefs).

Definition non_entailing_subsets (B : BeliefBase) (formula : Formula)
  : list BeliefBase :=
  filter (λ subset, entails subset formula = false) (subsets_of B).

(** The inner loop of the maximality filter: [subset1] is dropped when
    some [subset2] differs from it and has all its keys. *)
Definition is_maximal (candidates : list BeliefBase) (subset1 : BeliefBase)
  : bool :=
  negb (existsb (λ subset2, negb (dict_eqb subset1 subset2) &&
                            keys_issubset subset1 subset2) candidates).

(** [_find_maximal_non_entailing_subsets] *)
Definition find_maximal_non_entailing_subsets
  (B : BeliefBase) (formula : Formula) : list BeliefBase :=
  let non_entailing := non_entailing_subsets B formula in
  filter (λ subset1, is_maximal non_entailing subset1 = true) non_entailing.

(** [sum(priority for _, priority in subset.items())] *)
Definition score (subset : BeliefBase) : Z :=
  foldr (λ e acc, (e.2 + acc)%Z) 0%Z subset.

(** [list.sort(key=score, reverse=True)] is a stable sort: entries with
    equal keys keep their order.  Insertion sort from the right: an entry
    passes the later entries with a strictly greater score and stops in
    front of the first one whose score is not greater. *)
Fixpoint insert_desc (x : BeliefBase * Z) (l : list (BeliefBase * Z))
  : list (BeliefBase * Z) :=
  match l with
  | [] => [x]
  | y :: l' => if (x.2 <? y.2)%Z then y :: insert_desc x l' else x :: y :: l'
  end.

Definition sort_desc (l : list (BeliefBase * Z)) : list (BeliefBase * Z) :=
  foldr insert_desc [] l.

(** [_select_best_subset] *)
Definition select_best_subset (subsets : list BeliefBase) : BeliefBase :=
  match subsets with
  | [] => []
  | _ =>
      let subset_scores := (λ subset, (subset, score subset)) <$> subsets in
      match sort_desc subset_scores with
      | best :: _ => best.1
      | [] => []
      end
  end.

(** [contract]: the new value of [self.beliefs]. *)
Definition contract (formula : Formula) (B : BeliefBase) : BeliefBase :=
  if negb (entails B formula) then B
  else
    let maximal_subsets := find_maximal_non_entailing_subsets B formula in
    match maximal_subsets with
    | [] => B
    | _ => select_best_subset maximal_subsets
    end.

Definition expand (formula : Formula) (priority : Z) (B : BeliefBase)
  : BeliefBase := add_belief formula priority B.

Definition revise (formula : Formula) (priority : Z) (B : BeliefBase)
  : BeliefBase := expand formula priority (contract (Negation formula) B).

Definition scen_A : Formula := Implication (Atom "p") (Atom "q").
Definition scen_B : Formula := Atom "p".
Definition scen_base : BeliefBase :=
  add_belief scen_B 1 (add_belief scen_A 2 []).

(** Two bases with equal contents whose first keys are written with their
    children in opposite orders. *)
Definition comm_base1 : BeliefBase :=
  add_belief (Atom "r") 1 (add_belief (Conjunction (Atom "p") (Atom "q")) 2 []).
Definition comm_base2 : BeliefBase :=
  add_belief (Atom "r") 1 (add_belief (Conjunction (Atom "q") (Atom "p")) 2 []).

(** ** Auxiliary notions of the proofs *)

(** All sets of elements of a list. *)
Fixpoint powerlist (l : list Literal) : list Clause :=
  match l with
  | [] => [∅]
  | x :: l' => powerlist l' ++ ((λ c, {[ x ]} ∪ c) <$> powerlist l')
  end.

(** The entries of [l] at the positions [j], [j+1], ... whose bit is set
    in [i]. *)
Fixpoint mask_filter (i j : nat) (l : BeliefBase) : BeliefBase :=
  match l with
  | [] => []
  | e :: l' =>
      if Nat.testbit i j then e :: mask_filter i (S j) l'
      else mask_filter i (S j) l'
  end.

(** [b] is the first entry of [l] with the greatest key. *)
Definition first_max {A} (key : A → Z) (l : list A) (b : A) : Prop :=
  ∃ l1 l2, l = l1 ++ b :: l2 ∧
           Forall (λ y, (key y < key b)%Z) l1 ∧
           Forall (λ y, (key y ≤ key b)%Z) l2.

(** Equal contents: the same formulas (under [__eq__]) with the same
    priorities in the same insertion order. *)
Definition entry_same (e1 e2 : Formula * Z) : Prop :=
  formula_eqb e1.1 e2.1 = true ∧ e1.2 = e2.2.

Definition bb_same (B1 B2 : BeliefBase) : Prop := Forall2 entry_same B1 B2.

Definition scored_same (x y : BeliefBase * Z) : Prop :=
  bb_same x.1 y.1 ∧ x.2 = y.2.

(** Closed under [resolve]. *)
Definition saturated (S : CNF) : Prop :=
  ∀ c1 c2 r, c1 ∈ S → c2 ∈ S → r ∈ resolve c1 c2 → r ∈ S.

(** What is left of [S] once the literal [l] is made true: the clauses
    with [l] are gone, the others lose the negation of [l]. *)
Definition reduct (l : Literal) (S : CNF) : CNF :=
  set_map (λ c : Clause, c ∖ {[ negate l ]}) (filter (λ c : Clause, l ∉ c) S).

(** The assignment [v] with the value of [p] set to [b]. *)
Definition upd (v : assignment) (p : string) (b : bool) : assignment :=
  λ x, if decide (x = p) then b else v x.

(** The scenario base with both priorities equal. *)
Definition tie_base : BeliefBase :=
  add_belief scen_B 1 (add_belief scen_A 1 []).

(** ** FormulaParser, after [tokenize] *)

(** What a parsing method does: it returns a value and leaves
    [self.current] at a new position, or it raises [ValueError]; the third
    case is the model running out of fuel. *)
Inductive outcome (A : Type) :=
| Ok (value : A) (current : nat)
| Raise (message : string)
| OutOfFuel.
Arguments Ok {A} value current.
Arguments Raise {A} message.
Arguments OutOfFuel {A}.

Section Parser.

(** [self.tokens]; [self.current] is threaded through the methods. *)
Variable tokens : list string.

(** [match]: the answer and the new [self.current]. *)
Definition match_token (expected : string) (current : nat) : bool * nat :=
  match tokens !! current with
  | None => (false, current)
  | Some token =>
      if bool_decide (token = expected) then (true, S current)
      else (false, current)
  end.

(** [peek] *)
Definition peek (current : nat) : option string := tokens !! current.

(** [consume]: [self.current] moves on also at the end of the input. *)
Definition consume (current : nat) : option string * nat :=
  (peek current, S current).

(** The six parsing methods; each [while self.match(op)] loop is the
    function [*_loop], which carries [left].  One unit of fuel per call. *)
Fixpoint parse_biconditional (fuel current : nat) : outcome Formula :=
  match fuel with
  | O => OutOfFuel
  | S fuel =>
      match parse_implication fuel current with
      | Ok left_ current => biconditional_loop fuel left_ current
      | Raise message => Raise message
      | OutOfFuel => OutOfFuel
      end
  end
with biconditional_loop (fuel : nat) (left_ : Formula) (current : nat)
  : outcome Formula :=
  match fuel with
  | O => OutOfFuel
  | S fuel =>
      match match_token "<->" current with
      | (true, current) =>
          match parse_implication fuel current with
          | Ok right_ current =>
              biconditional_loop fuel (Biconditional left_ right_) current
          | Raise message => Raise message
          | OutOfFuel => OutOfFuel
          end
      | (false, current) => Ok left_ current
      end
  end
with parse_implication (fuel current : nat) : outcome Formula :=
  match fuel with
  | O => OutOfFuel
  | S fuel =>
      match parse_disjunction fuel current with
      | Ok left_ current => implication_loop fuel left_ current
      | Raise message => Raise message
      | OutOfFuel => OutOfFuel
      end
  end
with implication_loop (fuel : nat) (left_ : Formula) (current : nat)
  : outcome Formula :=
  match fuel with
  | O => OutOfFuel
  | S fuel =>
      match match_token "->" current with
      | (true, current) =>
          match parse_disjunction fuel current with
          | Ok right_ current =>
              implication_loop fuel (Implication left_ right_) current
          | Raise message => Raise message
          | OutOfFuel => OutOfFuel
          end
      | (false, current) => Ok left_ current
      end
  end
with parse_disjunction (fuel current : nat) : outcome Formula :=
  match fuel with
  | O => OutOfFuel
  | S fuel =>
      match parse_conjunction fuel current with
      | Ok left_ current => disjunction_loop fuel left_ current
      | Raise message => Raise message
      | OutOfFuel => OutOfFuel
      end
  end
with disjunction_loop (fuel : nat) (left_ : Formula) (current : nat)
  : outcome Formula :=
  match fuel with
  | O => OutOfFuel
  | S fuel =>
      match match_token "|" current with
      | (true, current) =>
          match parse_conjunction fuel current with
          | Ok right_ current =>
              disjunction_loop fuel (Disjunction left_ right_) current
          | Raise message => Raise message
          | OutOfFuel => OutOfFuel
          end
      | (false, current) => Ok left_ current
      end
  end
with parse_conjunction (fuel current : nat) : outcome Formula :=
  match fuel with
  | O => OutOfFuel
  | S fuel =>
      match parse_negation fuel current with
      | Ok left_ current => conjunction_loop fuel left_ current
      | Raise message => Raise message
      | OutOfFuel => OutOfFuel
      end
  end
with conjunction_loop (fuel : nat) (left_ : Formula) (current : nat)
  : outcome Formula :=
  match fuel with
  | O => OutOfFuel
  | S fuel =>
      match match_token "&" current with
      | (true, current) =>
          match parse_negation fuel current with
          | Ok right_ current =>
              conjunction_loop fuel (Conjunction left_ right_) current
          | Raise message => Raise message
          | OutOfFuel => OutOfFuel
          end
      | (false, current) => Ok left_ current
      end
  end
with parse_negation (fuel current : nat) : outcome Formula :=
  match fuel with
  | O => OutOfFuel
  | S fuel =>
      match match_token "!" current with
      | (true, current) =>
          match parse_negation fuel current with
          | Ok formula current => Ok (Negation formula) current
          | Raise message => Raise message
          | OutOfFuel => OutOfFuel
          end
      | (false, current) => parse_primary fuel current
      end
  end
with parse_primary (fuel current : nat) : outcome Formula :=
  match fuel with
  | O => OutOfFuel
  | S fuel =>
      match match_token "(" current with
      | (true, current) =>
          match parse_biconditional fuel current with
          | Ok expr current =>
              match match_token ")" current with
              | (true, current) => Ok expr current
              | (false, _) => Raise "Expected closing parenthesis"
              end
          | Raise message => Raise message
          | OutOfFuel => OutOfFuel
          end
      | (false, current) =>
          match consume current with
          | (None, _) => Raise "Unexpected end of input"
          | (Some token, current) => Ok (Atom token) current
          end
      end
  end.

End Parser.

(** Every call of a parsing method that goes deeper has read a token or
    stands one grammar level lower, so the depth of the calls stays below
    twelve times the number of tokens, plus twelve (theorem
    [parse_tokens_terminates]). *)
Definition parse_fuel (tokens : list string) : nat :=
  12 * (length tokens + 1).

(** [parse], from the token list on: [self.current = 0], then
    [parse_biconditional]. *)
Definition parse_tokens (tokens : list string) : outcome Formula :=
  parse_biconditional tokens (parse_fuel tokens) 0.

(** The tokens of a formula written in full parentheses, the way [__str__]
    writes it: a negation as [! ( f )], a binary connective as
    [( l op r )]. *)
Fixpoint tokens_of (f : Formula) : list string :=
  match f with
  | Atom n => [n]
  | Negation g => ["!"; "("] ++ tokens_of g ++ [")"]
  | Conjunction l r => ["("] ++ tokens_of l ++ ["&"] ++ tokens_of r ++ [")"]
  | Disjunction l r => ["("] ++ tokens_of l ++ ["|"] ++ tokens_of r ++ [")"]
  | Implication l r => ["("] ++ tokens_of l ++ ["->"] ++ tokens_of r ++ [")"]
  | Biconditional l r =>
      ["("] ++ tokens_of l ++ ["<->"] ++ tokens_of r ++ [")"]
  end.

(** No atom is named like the two tokens that [parse_negation] and
    [parse_primary] look for before they read an atom. *)
Fixpoint atoms_ok (f : Formula) : bool :=
  match f with
  | Atom n => negb (bool_decide (n = "!")) && negb (bool_decide (n = "("))
  | Negation g => atoms_ok g
  | Conjunction l r | Disjunction l r | Implication l r | Biconditional l r =>
      atoms_ok l && atoms_ok r
  end.

(** The token is none of the four binary operators. *)
Definition not_binary_operator (token : string) : Prop :=
  token ≠ "&" ∧ token ≠ "|" ∧ token ≠ "->" ∧ token ≠ "<->".

(** More fuel does not change what a method has returned or raised with
    fuel [n]. *)
Definition stable (g : nat → outcome Formula) (n : nat) : Prop :=
  ∀ extra r, g n = r → r ≠ OutOfFuel → g (n + extra) = r.

(** With enough fuel the method gives [r]. *)
Definition reaches (g : nat → outcome Formula) (r : outcome Formula) : Prop :=
  ∃ n, ∀ m, n ≤ m → g m = r.

(** The call started at [current] has ended, and when it has returned it
    has moved [self.current] forward (by at least one token when [strict])
    and not past the end of the tokens. *)
Definition returns_within (tokens : list string) (strict : bool)
           (x : outcome Formula) (current : nat) : Prop :=
  x ≠ OutOfFuel ∧
  ∀ f c, x = Ok f c →
         (if strict then current < c else current ≤ c) ∧ c ≤ length tokens.

(** The assignment [v] makes every belief of the base true. *)
Definition holds_in (v : assignment) (B : BeliefBase) : Prop :=
  ∀ f, f ∈ get_beliefs B → eval v f = true.

(** * Properties *)

(** ** Sets, clauses and their truth values *)

Lemma is_empty_true (c : Clause) : is_empty c = true ↔ c = ∅.
Proof.
  unfold is_empty. rewrite Nat.eqb_eq, size_empty_iff. by unfold_leibniz.
Qed.

Lemma is_tautology_true (c : Clause) :
  is_tautology c = true ↔ ∃ l, l ∈ c ∧ negate l ∈ c.
Proof.
  unfold is_tautology. rewrite existsb_exists. split.
  - intros (l & Hl & Hn). exists l. apply list_elem_of_In, elem_of_elements in Hl.
    apply bool_decide_eq_true in Hn. done.
  - intros (l & Hl & Hn). exists l. split.
    + by apply list_elem_of_In, elem_of_elements.
    + by apply bool_decide_eq_true.
Qed.

Lemma is_tautology_false (c : Clause) :
  is_tautology c = false ↔ ∀ l, l ∈ c → negate l ∉ c.
Proof.
  rewrite <- not_true_iff_false, is_tautology_true. split.
  - intros H l Hl Hn. apply H. eauto.
  - intros H (l & Hl & Hn). by apply (H l).
Qed.

Lemma eval_literal_negate v l :
  eval_literal v (negate l) = negb (eval_literal v l).
Proof. destruct l as [n []]; cbn; by rewrite ?negb_involutive. Qed.

Lemma eval_clause_true v (c : Clause) :
  eval_clause v c = true ↔ ∃ l, l ∈ c ∧ eval_literal v l = true.
Proof.
  unfold eval_clause. rewrite existsb_exists. split.
  - intros (l & Hl & H). exists l. by apply list_elem_of_In, elem_of_elements in Hl.
  - intros (l & Hl & H). exists l. split; [|done].
    by apply list_elem_of_In, elem_of_elements.
Qed.

Lemma eval_cnf_true v (s : CNF) :
  eval_cnf v s = true ↔ ∀ c, c ∈ s → eval_clause v c = true.
Proof.
  unfold eval_cnf. rewrite forallb_forall. split.
  - intros H c Hc. apply H. by apply list_elem_of_In, elem_of_elements.
  - intros H c Hc. apply H. by apply list_elem_of_In, elem_of_elements in Hc.
Qed.

(** A tautological clause is true under every assignment. *)
Lemma eval_clause_tautology v (c : Clause) :
  is_tautology c = true → eval_clause v c = true.
Proof.
  rewrite is_tautology_true. intros (l & Hl & Hn).
  apply eval_clause_true. destruct (eval_literal v l) eqn:E.
  - eauto.
  - exists (negate l). split; [done|]. by rewrite eval_literal_negate, E.
Qed.

Lemma eval_clause_union v (a b : Clause) :
  eval_clause v (a ∪ b) = eval_clause v a || eval_clause v b.
Proof.
  apply eq_true_iff_eq. rewrite orb_true_iff, !eval_clause_true. split.
  - intros (l & [Hl|Hl]%elem_of_union & H); eauto.
  - intros [(l & Hl & H)|(l & Hl & H)]; exists l; set_solver.
Qed.

Lemma eval_cnf_union v (X Y : CNF) :
  eval_cnf v (X ∪ Y) = eval_cnf v X && eval_cnf v Y.
Proof.
  apply eq_true_iff_eq. rewrite andb_true_iff, !eval_cnf_true. split.
  - intros H. split; intros c Hc; apply H; set_solver.
  - intros [H1 H2] c [Hc|Hc]%elem_of_union; auto.
Qed.

Lemma elem_of_distribute (X Y : CNF) (c : Clause) :
  c ∈ distribute X Y ↔
  ∃ a b, a ∈ X ∧ b ∈ Y ∧ c = a ∪ b ∧ is_tautology c = false.
Proof.
  unfold distribute. rewrite elem_of_list_to_set, list_elem_of_bind. split.
  - intros (a & Hc & Ha%elem_of_elements).
    apply list_elem_of_bind in Hc as (b & Hc & Hb%elem_of_elements).
    cbn in Hc. destruct (is_tautology (a ∪ b)) eqn:E.
    + by apply elem_of_nil in Hc.
    + apply list_elem_of_singleton in Hc as ->. eauto 6.
  - intros (a & b & Ha & Hb & -> & E). exists a. split.
    + apply list_elem_of_bind. exists b. split.
      * cbn. rewrite E. apply list_elem_of_singleton. done.
      * by apply elem_of_elements.
    + by apply elem_of_elements.
Qed.

Lemma eval_cnf_distribute v (X Y : CNF) :
  eval_cnf v (distribute X Y) = eval_cnf v X || eval_cnf v Y.
Proof.
  apply eq_true_iff_eq. rewrite orb_true_iff, !eval_cnf_true. split.
  - intros H. destruct (eval_cnf v X) eqn:EX.
    + left. by apply eval_cnf_true.
    + right. intros b Hb.
      apply not_true_iff_false in EX. rewrite eval_cnf_true in EX.
      destruct (eval_clause v b) eqn:Eb; [done|]. exfalso. apply EX.
      intros a Ha. destruct (is_tautology (a ∪ b)) eqn:Et.
      * apply (eval_clause_tautology v) in Et.
        rewrite eval_clause_union, Eb, orb_false_r in Et. done.
      * assert (Hab : a ∪ b ∈ distribute X Y).
        { apply elem_of_distribute. eauto 6. }
        apply H in Hab. rewrite eval_clause_union, Eb, orb_false_r in Hab. done.
  - intros H c (a & b & Ha & Hb & -> & _)%elem_of_distribute.
    rewrite eval_clause_union. apply orb_true_iff.
    destruct H as [H|H]; [left|right]; auto.
Qed.

Lemma distribute_comm (X Y : CNF) : distribute X Y = distribute Y X.
Proof.
  apply set_eq. intros c. rewrite !elem_of_distribute. split.
  - intros (a & b & Ha & Hb & -> & E). exists b, a.
    rewrite (comm_L (∪) b a). done.
  - intros (a & b & Ha & Hb & -> & E). exists b, a.
    rewrite (comm_L (∪) b a). done.
Qed.

(** ** CNF conversion *)

(** The branches of [Negation.to_cnf], as the source writes them. *)
Lemma to_cnf_Negation_Atom n :
  to_cnf (Negation (Atom n)) = {[ {[ mkLiteral n true ]} ]}.
Proof. reflexivity. Qed.

Lemma to_cnf_Negation_Negation f :
  to_cnf (Negation (Negation f)) = to_cnf f.
Proof. reflexivity. Qed.

Lemma to_cnf_Negation_Conjunction l r :
  to_cnf (Negation (Conjunction l r)) =
  to_cnf (Disjunction (Negation l) (Negation r)).
Proof. reflexivity. Qed.

Lemma to_cnf_Negation_Disjunction l r :
  to_cnf (Negation (Disjunction l r)) =
  to_cnf (Conjunction (Negation l) (Negation r)).
Proof. reflexivity. Qed.

Lemma to_cnf_Negation_Implication a c :
  to_cnf (Negation (Implication a c)) =
  to_cnf (Conjunction a (Negation c)).
Proof. reflexivity. Qed.

Lemma to_cnf_Negation_Biconditional l r :
  to_cnf (Negation (Biconditional l r)) =
  to_cnf (Disjunction (Conjunction l (Negation r))
                      (Conjunction (Negation l) r)).
Proof. reflexivity. Qed.

Lemma to_cnf_Implication a c :
  to_cnf (Implication a c) = to_cnf (Disjunction (Negation a) c).
Proof. reflexivity. Qed.

Lemma to_cnf_Biconditional l r :
  to_cnf (Biconditional l r) =
  to_cnf (Conjunction (Implication l r) (Implication r l)).
Proof. reflexivity. Qed.

Lemma eval_cnf_unit v (l : Literal) :
  eval_cnf v {[ {[ l ]} ]} = eval_literal v l.
Proof.
  apply eq_true_iff_eq. rewrite eval_cnf_true. split.
  - intros H. specialize (H {[ l ]}). rewrite eval_clause_true in H.
    destruct H as (l' & Hl' & E); [set_solver|].
    by apply elem_of_singleton in Hl' as ->.
  - intros E c ->%elem_of_singleton. apply eval_clause_true.
    exists l. set_solver.
Qed.

Lemma to_cnf_eval_both v f :
  eval_cnf v (to_cnf f) = eval v f ∧
  eval_cnf v (neg_to_cnf f) = negb (eval v f).
Proof.
  induction f as [n|g [IHp IHn]|l [IHlp IHln] r [IHrp IHrn]
                 |l [IHlp IHln] r [IHrp IHrn]
                 |l [IHlp IHln] r [IHrp IHrn]
                 |l [IHlp IHln] r [IHrp IHrn]]; cbn [to_cnf neg_to_cnf eval].
  - by rewrite !eval_cnf_unit.
  - by rewrite IHp, IHn, negb_involutive.
  - rewrite eval_cnf_union, eval_cnf_distribute, IHlp, IHln, IHrp, IHrn.
    by rewrite negb_andb.
  - rewrite eval_cnf_union, eval_cnf_distribute, IHlp, IHln, IHrp, IHrn.
    by rewrite negb_orb.
  - rewrite eval_cnf_union, eval_cnf_distribute, IHlp, IHln, IHrp, IHrn.
    by destruct (eval v l), (eval v r).
  - rewrite !eval_cnf_union, !eval_cnf_distribute, !eval_cnf_union,
      IHlp, IHln, IHrp, IHrn.
    by destruct (eval v l), (eval v r).
Qed.

(** C1. CNF conversion is sound and total: [to_cnf] is a total function on
    the six variants of [Formula], and under every truth assignment the
    clause set [to_cnf F] has the truth value of [F]. *)
Theorem to_cnf_sound (F : Formula) (v : assignment) :
  eval_cnf v (to_cnf F) = eval v F.
Proof. apply to_cnf_eval_both. Qed.

Lemma negate_ne (l : Literal) : negate l ≠ l.
Proof. destruct l as [n []]; unfold negate; cbn; congruence. Qed.

Lemma unit_clause_not_tautology (l : Literal) : is_tautology {[ l ]} = false.
Proof.
  apply is_tautology_false. intros l' ->%elem_of_singleton Hn%elem_of_singleton.
  by apply (negate_ne l).
Qed.

Lemma distribute_no_tautology (X Y : CNF) (c : Clause) :
  c ∈ distribute X Y → is_tautology c = false.
Proof. by intros (a & b & _ & _ & _ & E)%elem_of_distribute. Qed.

Lemma to_cnf_no_tautology_both (f : Formula) :
  (∀ c, c ∈ to_cnf f → is_tautology c = false) ∧
  (∀ c, c ∈ neg_to_cnf f → is_tautology c = false).
Proof.
  induction f as [n|g [IHp IHn]|l [IHlp IHln] r [IHrp IHrn]
                 |l [IHlp IHln] r [IHrp IHrn]
                 |l [IHlp IHln] r [IHrp IHrn]
                 |l [IHlp IHln] r [IHrp IHrn]]; cbn [to_cnf neg_to_cnf];
    split; intros c Hc;
    repeat match goal with
      | H : _ ∈ {[ _ ]} |- _ =>
          apply elem_of_singleton in H as ->; apply unit_clause_not_tautology
      | H : _ ∈ _ ∪ _ |- _ => apply elem_of_union in H as [H|H]
      | H : _ ∈ distribute _ _ |- _ => by apply distribute_no_tautology in H
      end; auto.
Qed.

(** C8. Tautology filtering: no clause of [to_cnf F] holds a literal
    together with its negation. *)
Theorem to_cnf_no_tautology (F : Formula) (c : Clause) (l : Literal) :
  c ∈ to_cnf F → l ∈ c → negate l ∉ c.
Proof.
  intros Hc. apply (proj1 (is_tautology_false c)).
  exact (proj1 (to_cnf_no_tautology_both F) c Hc).
Qed.

Lemma to_cnf_no_tautology_witness :
  ({[ mkLiteral "p" true; mkLiteral "q" false ]} : Clause)
    ∈ to_cnf (Implication (Atom "p") (Atom "q")) ∧
  mkLiteral "p" true
    ∈ ({[ mkLiteral "p" true; mkLiteral "q" false ]} : Clause) ∧
  negate (mkLiteral "p" true)
    ∉ ({[ mkLiteral "p" true; mkLiteral "q" false ]} : Clause).
Proof.
  assert (H1 : ({[ mkLiteral "p" true; mkLiteral "q" false ]} : Clause)
                 ∈ to_cnf (Implication (Atom "p") (Atom "q"))).
  { apply (bool_decide_unpack _). vm_compute. exact I. }
  assert (H2 : mkLiteral "p" true
                 ∈ ({[ mkLiteral "p" true; mkLiteral "q" false ]} : Clause)).
  { apply (bool_decide_unpack _). vm_compute. exact I. }
  split; [exact H1|]. split; [exact H2|].
  exact (to_cnf_no_tautology _ _ _ H1 H2).
Defined.

(** ** Equality of formulas *)

Lemma formula_eqb_refl (a : Formula) : formula_eqb a a = true.
Proof.
  induction a; cbn; rewrite ?IHa, ?IHa1, ?IHa2; auto.
  by apply bool_decide_eq_true.
Qed.

Lemma formula_eqb_sym (a b : Formula) : formula_eqb a b = formula_eqb b a.
Proof.
  revert b. induction a as [n|f IH|l IHl r IHr|l IHl r IHr|l IHl r IHr|l IHl r IHr];
    intros [m|g|l' r'|l' r'|l' r'|l' r']; cbn; try reflexivity.
  - apply bool_decide_ext. split; congruence.
  - apply IH.
  - rewrite (IHl l'), (IHr r'), (IHl r'), (IHr l').
    by destruct (formula_eqb l' l), (formula_eqb r' r),
                (formula_eqb r' l), (formula_eqb l' r).
  - rewrite (IHl l'), (IHr r'), (IHl r'), (IHr l').
    by destruct (formula_eqb l' l), (formula_eqb r' r),
                (formula_eqb r' l), (formula_eqb l' r).
  - by rewrite (IHl l'), (IHr r').
  - rewrite (IHl l'), (IHr r'), (IHl r'), (IHr l').
    by destruct (formula_eqb l' l), (formula_eqb r' r),
                (formula_eqb r' l), (formula_eqb l' r).
Qed.

(** C7. Equality is commutative for the symmetric connectives, and for
    implications [Implication A B == Implication B A] holds exactly when
    [A == B]. *)
Theorem formula_eqb_commutative (A B : Formula) :
  formula_eqb (Conjunction A B) (Conjunction B A) = true ∧
  formula_eqb (Disjunction A B) (Disjunction B A) = true ∧
  formula_eqb (Biconditional A B) (Biconditional B A) = true ∧
  formula_eqb (Implication A B) (Implication B A) = formula_eqb A B.
Proof.
  cbn. rewrite !formula_eqb_refl, (formula_eqb_sym B A).
  repeat split; try apply orb_true_r. apply andb_diag.
Qed.

(** ** Resolution *)

Lemma elem_of_resolve (c1 c2 r : Clause) :
  r ∈ resolve c1 c2 ↔
  ∃ lit1 lit2, lit1 ∈ c1 ∧ lit2 ∈ c2 ∧ lit2 = negate lit1 ∧
               r = (c1 ∖ {[ lit1 ]}) ∪ (c2 ∖ {[ lit2 ]}) ∧
               is_tautology r = false.
Proof.
  unfold resolve. rewrite list_elem_of_bind. split.
  - intros (lit1 & Hr & H1%elem_of_elements).
    apply list_elem_of_bind in Hr as (lit2 & Hr & H2%elem_of_elements).
    destruct (bool_decide (name lit1 = name lit2)) eqn:En; cbn in Hr;
      [|by apply elem_of_nil in Hr].
    destruct (eqb (negated lit1) (negated lit2)) eqn:Es; cbn in Hr;
      [by apply elem_of_nil in Hr|].
    destruct (is_tautology _) eqn:Et; [by apply elem_of_nil in Hr|].
    apply list_elem_of_singleton in Hr as ->.
    exists lit1, lit2. repeat split; auto.
    apply bool_decide_eq_true in En.
    destruct lit1 as [n1 s1], lit2 as [n2 s2]; cbn in *. subst n2.
    unfold negate; cbn. f_equal. by destruct s1, s2.
  - intros (lit1 & lit2 & H1 & H2 & -> & -> & Et). exists lit1. split.
    + apply list_elem_of_bind. exists (negate lit1). split.
      * cbn. rewrite bool_decide_eq_true_2 by done.
        replace (eqb _ _) with false by (by destruct (negated lit1)).
        cbn. rewrite Et. by apply list_elem_of_singleton.
      * by apply elem_of_elements.
    + by apply elem_of_elements.
Qed.

Lemma elem_of_round_resolvents (clauses new_clauses : CNF) (r : Clause) :
  r ∈ round_resolvents clauses new_clauses ↔
  ∃ c1 c2, c1 ∈ clauses ∧ c2 ∈ new_clauses ∧ c1 ≠ c2 ∧ r ∈ resolve c1 c2.
Proof.
  unfold round_resolvents, pairs. rewrite list_elem_of_bind. split.
  - intros ([c1 c2] & Hr & Hp). cbn in Hr.
    apply list_elem_of_bind in Hp as (c1' & Hp & H1%elem_of_elements).
    apply list_elem_of_bind in Hp as (c2' & Hp & H2%elem_of_elements).
    case_bool_decide; [|by apply elem_of_nil in Hp].
    apply list_elem_of_singleton in Hp. simplify_eq. eauto 6.
  - intros (c1 & c2 & H1 & H2 & Hne & Hr). exists (c1, c2). split; [done|].
    apply list_elem_of_bind. exists c1. split; [|by apply elem_of_elements].
    apply list_elem_of_bind. exists c2. split; [|by apply elem_of_elements].
    rewrite bool_decide_eq_true_2 by done. by apply list_elem_of_singleton.
Qed.

(** A resolvent is true wherever both parents are. *)
Lemma resolve_sound v (c1 c2 r : Clause) :
  r ∈ resolve c1 c2 →
  eval_clause v c1 = true → eval_clause v c2 = true →
  eval_clause v r = true.
Proof.
  intros (lit1 & lit2 & H1 & H2 & -> & -> & _)%elem_of_resolve.
  rewrite !eval_clause_true. intros (a & Ha & Ea) (b & Hb & Eb).
  destruct (decide (a = lit1)) as [->|Hne].
  - exists b. split; [|done]. apply elem_of_union. right.
    apply elem_of_difference. split; [done|].
    intros ->%elem_of_singleton. rewrite eval_literal_negate, Ea in Eb. done.
  - exists a. split; [|done]. set_solver.
Qed.

Lemma resolve_subseteq (c1 c2 r : Clause) :
  r ∈ resolve c1 c2 → r ⊆ c1 ∪ c2.
Proof.
  intros (lit1 & lit2 & _ & _ & _ & -> & _)%elem_of_resolve. set_solver.
Qed.

Lemma existsb_is_empty (l : list Clause) :
  existsb is_empty l = true ↔ ∅ ∈ l.
Proof.
  rewrite existsb_exists. split.
  - intros (c & Hc & ->%is_empty_true). by apply list_elem_of_In.
  - intros H. exists ∅. split; [by apply list_elem_of_In|by apply is_empty_true].
Qed.

(** The next frontier of a round. *)
Lemma elem_of_next_frontier (clauses : CNF) (rs : list Clause) (r : Clause) :
  r ∈ (list_to_set (filter (λ resolvent, resolvent ∉ clauses) rs) : CNF) ↔
  r ∈ rs ∧ r ∉ clauses.
Proof. rewrite elem_of_list_to_set, list_elem_of_filter. tauto. Qed.

(** No round of the loop answers [True] on clauses that an assignment
    satisfies. *)
Lemma resolution_loop_sound v (fuel : nat) (clauses new_clauses : CNF) :
  eval_cnf v clauses = true → eval_cnf v new_clauses = true →
  resolution_loop fuel clauses new_clauses ≠ Some true.
Proof.
  revert clauses new_clauses.
  induction fuel as [|fuel IH]; intros clauses new_clauses Hc Hn; [done|].
  cbn [resolution_loop].
  assert (Hrs : ∀ r, r ∈ round_resolvents clauses new_clauses →
                     eval_clause v r = true).
  { intros r (c1 & c2 & H1 & H2 & _ & Hr)%elem_of_round_resolvents.
    rewrite eval_cnf_true in Hc, Hn. eapply resolve_sound; eauto. }
  destruct (existsb is_empty _) eqn:Ee.
  - apply existsb_is_empty, Hrs in Ee. exfalso.
    apply eval_clause_true in Ee as (l & Hl & _). set_solver.
  - destruct (_ || _); [done|]. apply IH.
    + rewrite eval_cnf_union, Hc. cbn. apply eval_cnf_true.
      intros r [Hr _]%elem_of_next_frontier. auto.
    + apply eval_cnf_true. intros r [Hr _]%elem_of_next_frontier. auto.
Qed.

(** Soundness of [resolution]: the answer [True] is only given on an
    unsatisfiable clause set. *)
Lemma resolution_sound (clauses : CNF) :
  resolution clauses = true → ¬ satisfiable clauses.
Proof.
  unfold resolution. intros H [v Hv].
  destruct (resolution_loop _ _ _) as [[]|] eqn:E; try done.
  by apply (resolution_loop_sound v) in E.
Qed.

(** *** Termination *)

Lemma length_powerlist l : length (powerlist l) = 2 ^ length l.
Proof.
  induction l as [|x l IH]; [done|].
  cbn [powerlist length]. rewrite length_app, length_fmap, IH, Nat.pow_succ_r'. lia.
Qed.

Lemma elem_of_powerlist (l : list Literal) (c : Clause) :
  c ⊆ list_to_set l → c ∈ powerlist l.
Proof.
  revert c. induction l as [|x l IH]; intros c Hc; cbn in *.
  - apply list_elem_of_singleton. set_solver.
  - apply elem_of_app. destruct (decide (x ∈ c)) as [Hx|Hx].
    + right. apply list_elem_of_fmap. exists (c ∖ {[ x ]}). split.
      * apply set_eq. intros y. destruct (decide (y = x)); set_solver.
      * apply IH. set_solver.
    + left. apply IH. set_solver.
Qed.

(** A family of subsets of [L] has at most [2 ^ size L] members. *)
Lemma size_family_bound (L : gset Literal) (S : CNF) :
  (∀ c, c ∈ S → c ⊆ L) → size S ≤ 2 ^ size L.
Proof.
  intros H. unfold size at 2, set_size; cbn.
  rewrite <- length_powerlist.
  apply submseteq_length, NoDup_submseteq; [apply NoDup_elements|].
  intros c Hc%elem_of_elements. apply elem_of_powerlist.
  rewrite list_to_set_elements_L. auto.
Qed.

Lemma resolution_loop_total (L : gset Literal) (fuel : nat)
      (clauses new_clauses : CNF) :
  (∀ c, c ∈ clauses → c ⊆ L) → new_clauses ⊆ clauses →
  2 ^ size L < size clauses + fuel →
  is_Some (resolution_loop fuel clauses new_clauses).
Proof.
  revert clauses new_clauses.
  induction fuel as [|fuel IH]; intros clauses new_clauses Hc Hn Hf.
  { pose proof (size_family_bound L clauses Hc). lia. }
  cbn [resolution_loop].
  destruct (existsb is_empty _); [done|].
  set (new' := list_to_set _ : CNF).
  destruct (bool_decide (new' = ∅) || bool_decide (new' ⊆ clauses)) eqn:E;
    [done|].
  apply orb_false_iff in E as [_ E%bool_decide_eq_false].
  apply IH.
  - intros c [Hcc|Hcn]%elem_of_union; [auto|].
    apply elem_of_next_frontier in Hcn as [Hr _].
    apply elem_of_round_resolvents in Hr as (c1 & c2 & H1 & H2 & _ & Hr).
    apply resolve_subseteq in Hr.
    pose proof (Hc c1 H1). pose proof (Hc c2 (Hn c2 H2)). set_solver.
  - set_solver.
  - assert (size clauses < size (clauses ∪ new')); [|lia].
    apply subset_size. split; [set_solver|]. set_solver.
Qed.

Lemma resolution_loop_more_fuel (fuel extra : nat) (clauses new_clauses : CNF)
      (b : bool) :
  resolution_loop fuel clauses new_clauses = Some b →
  resolution_loop (fuel + extra) clauses new_clauses = Some b.
Proof.
  revert clauses new_clauses.
  induction fuel as [|fuel IH]; intros clauses new_clauses; [done|].
  cbn [resolution_loop Nat.add].
  destruct (existsb is_empty _); [done|]. destruct (_ || _); [done|]. apply IH.
Qed.

Lemma literals_of_spec (clauses : CNF) (c : Clause) :
  c ∈ clauses → c ⊆ literals_of clauses.
Proof.
  intros Hc l Hl. unfold literals_of. apply elem_of_union_list.
  exists c. split; [by apply elem_of_elements|done].
Qed.

Lemma resolution_loop_answer (clauses : CNF) :
  resolution_loop (resolution_rounds clauses) clauses clauses
  = Some (resolution clauses).
Proof.
  unfold resolution.
  destruct (resolution_loop_total (literals_of clauses)
              (resolution_rounds clauses) clauses clauses) as [b Hb].
  - apply literals_of_spec.
  - done.
  - unfold resolution_rounds. lia.
  - by rewrite Hb.
Qed.

(** C5. The saturation loop terminates on every finite clause set: after
    at most [2 ^ n + 1] rounds, [n] the number of literals of the input,
    the loop has returned, and it returns the answer of [resolution]. *)
Theorem resolution_terminates (clauses : CNF) (extra : nat) :
  resolution_loop (resolution_rounds clauses + extra) clauses clauses
  = Some (resolution clauses).
Proof. apply resolution_loop_more_fuel, resolution_loop_answer. Qed.

(** ** Refutation completeness on inputs without the empty clause *)

Lemma negate_involutive (l : Literal) : negate (negate l) = l.
Proof. destruct l as [n s]. unfold negate. cbn. by rewrite negb_involutive. Qed.

Lemma literal_same_name (l m : Literal) :
  name m = name l → m = l ∨ m = negate l.
Proof.
  destruct l as [n s], m as [n' s']; unfold negate; cbn. intros ->.
  destruct s, s'; auto.
Qed.

Lemma elem_of_reduct (l : Literal) (S : CNF) (c' : Clause) :
  c' ∈ reduct l S ↔ ∃ c, c ∈ S ∧ (l ∉ c) ∧ c' = c ∖ {[ negate l ]}.
Proof.
  unfold reduct. rewrite elem_of_map. split.
  - intros (c & -> & [Hl Hc]%elem_of_filter). eauto.
  - intros (c & Hc & Hl & ->). exists c. split; [done|].
    by apply elem_of_filter.
Qed.

Lemma resolve_comm (c1 c2 r : Clause) : r ∈ resolve c1 c2 → r ∈ resolve c2 c1.
Proof.
  rewrite !elem_of_resolve. intros (l1 & l2 & H1 & H2 & -> & -> & Ht).
  exists (negate l1), l1. rewrite negate_involutive.
  split; [done|]. split; [done|]. split; [done|].
  split; [apply (comm_L (∪))|done].
Qed.

(** A clause has no resolvent with itself: the candidate is the clause
    again, which then is a tautology. *)
Lemma resolve_self (c r : Clause) : r ∉ resolve c c.
Proof.
  intros (l1 & l2 & H1 & H2 & -> & -> & Ht)%elem_of_resolve.
  rewrite is_tautology_false in Ht. apply (Ht l1).
  - pose proof (negate_ne l1). set_solver.
  - pose proof (negate_ne l1). set_solver.
Qed.

Lemma reduct_saturated (l : Literal) (S : CNF) :
  saturated S → saturated (reduct l S).
Proof.
  intros Hsat c1' c2' r' (c1 & H1 & Hl1 & ->)%elem_of_reduct
         (c2 & H2 & Hl2 & ->)%elem_of_reduct
         (m & m' & Hm1 & Hm2 & -> & -> & Ht)%elem_of_resolve.
  apply elem_of_difference in Hm1 as [Hm1 Hn1].
  apply elem_of_difference in Hm2 as [Hm2 Hn2].
  set (r := (c1 ∖ {[ m ]}) ∪ (c2 ∖ {[ negate m ]})).
  assert (Hr' : (c1 ∖ {[ negate l ]}) ∖ {[ m ]}
                ∪ (c2 ∖ {[ negate l ]}) ∖ {[ negate m ]}
                = r ∖ {[ negate l ]}) by set_solver.
  rewrite Hr' in Ht |- *.
  assert (Hlr : l ∉ r) by set_solver.
  apply elem_of_reduct. exists r. split; [|done].
  apply (Hsat c1 c2); [done..|].
  apply elem_of_resolve. exists m, (negate m). repeat split; auto.
  apply is_tautology_false. intros x Hx Hnx.
  rewrite is_tautology_false in Ht. apply (Ht x).
  - apply elem_of_difference. split; [done|].
    intros ->%elem_of_singleton. by rewrite negate_involutive in Hnx.
  - apply elem_of_difference. split; [done|].
    intros E%elem_of_singleton. apply Hlr.
    by rewrite <- (negate_involutive l), <- E, negate_involutive.
Qed.

Lemma eval_literal_upd_same v (l : Literal) :
  eval_literal (upd v (name l) (negb (negated l))) l = true.
Proof.
  unfold eval_literal, upd. rewrite decide_True by done.
  by destruct (negated l).
Qed.

Lemma eval_literal_upd_other v (p : string) (b : bool) (m : Literal) :
  name m ≠ p → eval_literal (upd v p b) m = eval_literal v m.
Proof. intros H. unfold eval_literal, upd. by rewrite decide_False. Qed.

(** A model of the reduct, with [l] made true, is a model of the set. *)
Lemma reduct_model v (l : Literal) (S : CNF) :
  eval_cnf v (reduct l S) = true →
  eval_cnf (upd v (name l) (negb (negated l))) S = true.
Proof.
  rewrite !eval_cnf_true. intros H c Hc. apply eval_clause_true.
  destruct (decide (l ∈ c)) as [Hl|Hl].
  - exists l. split; [done|apply eval_literal_upd_same].
  - assert (Hr : c ∖ {[ negate l ]} ∈ reduct l S).
    { apply elem_of_reduct. eauto. }
    apply H, eval_clause_true in Hr as (m & [Hm Hn]%elem_of_difference & Em).
    exists m. split; [done|]. rewrite eval_literal_upd_other; [done|].
    intros [->| ->]%literal_same_name; [done|set_solver].
Qed.

Lemma unit_clause_of_difference (c : Clause) (l : Literal) :
  c ≠ ∅ → ∅ = c ∖ {[ l ]} → c = {[ l ]}.
Proof.
  intros Hne E. apply set_eq. intros x. rewrite elem_of_singleton.
  assert (Hin : ∀ y, y ∈ c → y = l).
  { intros y Hy. destruct (decide (y = l)) as [|Hyl]; [done|]. exfalso.
    apply (not_elem_of_empty (C:=Clause) y). rewrite E.
    apply elem_of_difference. split; [done|]. by intros ?%elem_of_singleton. }
  split; [apply Hin|]. intros ->.
  destruct (decide (l ∈ c)) as [|Hl]; [done|]. exfalso. apply Hne.
  apply set_eq. intros y. split; [|by intros ?%elem_of_empty].
  intros Hy. pose proof (Hin y Hy) as ->. done.
Qed.

(** Model existence: a saturated set without the empty clause has a
    model, by induction on the names that occur in it. *)
Lemma saturated_model (names : list string) (S : CNF) :
  (∀ c l, c ∈ S → l ∈ c → name l ∈ names) →
  saturated S → ∅ ∉ S → satisfiable S.
Proof.
  revert S. induction names as [|p ns IH]; intros S Hnames Hsat Hemp.
  - exists (λ _, false). apply eval_cnf_true. intros c Hc. exfalso.
    apply Hemp. replace ∅ with c; [done|]. apply set_eq. intros l.
    split; [|set_solver]. intros Hl. by apply Hnames, elem_of_nil in Hl.
  - set (P := mkLiteral p false).
    assert (Hstep : ∀ l, name l = p → ∅ ∉ reduct l S → satisfiable S).
    { intros l Hl Hr. destruct (IH (reduct l S)) as [v Hv]; [|by apply reduct_saturated|done|].
      - intros c' m (c & Hc & Hlc & ->)%elem_of_reduct [Hm Hn]%elem_of_difference.
        pose proof (Hnames c m Hc Hm) as [E|?]%elem_of_cons; [|done].
        exfalso. rewrite <- Hl in E.
        apply literal_same_name in E as [->| ->]; [done|set_solver].
      - eexists. by apply reduct_model. }
    destruct (decide (∅ ∈ reduct P S)) as [HT|HT]; [|by apply (Hstep P)].
    destruct (decide (∅ ∈ reduct (negate P) S)) as [HF|HF];
      [|by apply (Hstep (negate P))].
    exfalso. apply Hemp.
    apply elem_of_reduct in HT as (c & Hc & HPc & Ec).
    apply elem_of_reduct in HF as (d & Hd & HPd & Ed).
    rewrite negate_involutive in Ed.
    apply (Hsat d c); [done..|]. apply elem_of_resolve.
    assert (Hc' : c = {[ negate P ]}).
    { apply unit_clause_of_difference; [|done]. by intros ->. }
    assert (Hd' : d = {[ P ]}).
    { apply unit_clause_of_difference; [|done]. by intros ->. }
    clear -Hc' Hd'. subst c d. exists P, (negate P).
    split; [by apply elem_of_singleton|].
    split; [by apply elem_of_singleton|]. split; [done|].
    rewrite !difference_diag_L, (left_id_L ∅ (∪)). split; [done|].
    apply is_tautology_false. by intros l Hl%elem_of_empty.
Qed.

(** One round meets every pair that holds a frontier clause. *)
Lemma round_covers (clauses new_clauses : CNF) (c1 c2 r : Clause) :
  new_clauses ⊆ clauses →
  (∀ c1 c2 r, c1 ∈ clauses → c2 ∈ clauses →
              c1 ∉ new_clauses → c2 ∉ new_clauses →
              r ∈ resolve c1 c2 → r ∈ clauses) →
  c1 ∈ clauses → c2 ∈ clauses → r ∈ resolve c1 c2 →
  r ∈ clauses ∨ r ∈ round_resolvents clauses new_clauses.
Proof.
  intros Hn Hold H1 H2 Hr.
  assert (Hne : c1 ≠ c2) by (intros ->; by apply resolve_self in Hr).
  destruct (decide (c2 ∈ new_clauses)) as [H2n|H2n].
  { right. apply elem_of_round_resolvents. eauto 6. }
  destruct (decide (c1 ∈ new_clauses)) as [H1n|H1n].
  { right. apply elem_of_round_resolvents. exists c2, c1.
    repeat split; auto. by apply resolve_comm. }
  left. by apply (Hold c1 c2).
Qed.

(** When the loop answers [False] on clauses without the empty clause,
    the accumulated set has grown into a saturated set without the empty
    clause. *)
Lemma resolution_loop_saturates (fuel : nat) (clauses new_clauses : CNF) :
  new_clauses ⊆ clauses → ∅ ∉ clauses →
  (∀ c1 c2 r, c1 ∈ clauses → c2 ∈ clauses →
              c1 ∉ new_clauses → c2 ∉ new_clauses →
              r ∈ resolve c1 c2 → r ∈ clauses) →
  resolution_loop fuel clauses new_clauses = Some false →
  ∃ S, clauses ⊆ S ∧ saturated S ∧ ∅ ∉ S.
Proof.
  revert clauses new_clauses.
  induction fuel as [|fuel IH]; intros clauses new_clauses Hn Hemp Hold; [done|].
  cbn [resolution_loop].
  destruct (existsb is_empty _) eqn:Ee; [done|].
  set (rs := round_resolvents clauses new_clauses) in *.
  set (new' := list_to_set _ : CNF).
  assert (Hrs : ∅ ∉ rs).
  { intros H%existsb_is_empty. congruence. }
  destruct (bool_decide (new' = ∅) || bool_decide (new' ⊆ clauses)) eqn:E.
  - intros _. exists clauses. split; [done|]. split; [|done].
    intros c1 c2 r H1 H2 Hr.
    destruct (round_covers clauses new_clauses c1 c2 r) as [?|Hin]; auto.
    destruct (decide (r ∈ clauses)) as [|Hnot]; [done|]. exfalso.
    assert (Hr' : r ∈ new') by (by apply elem_of_next_frontier).
    apply orb_true_iff in E as [E%bool_decide_eq_true|E%bool_decide_eq_true].
    + rewrite E in Hr'. by apply elem_of_empty in Hr'.
    + by apply Hnot, E.
  - intros Hloop. destruct (IH (clauses ∪ new') new') as (S & HS & Hsat & HSe);
      [set_solver| | |done|].
    + intros [?|[? _]%elem_of_next_frontier]%elem_of_union; done.
    + intros c1 c2 r [H1|H1]%elem_of_union [H2|H2]%elem_of_union Hn1 Hn2 Hr;
        try done.
      destruct (round_covers clauses new_clauses c1 c2 r) as [?|Hin]; auto;
        [set_solver|].
      destruct (decide (r ∈ clauses)); [set_solver|].
      apply elem_of_union. right. by apply elem_of_next_frontier.
    + exists S. split; [set_solver|done].
Qed.

Lemma eval_cnf_subseteq v (S S' : CNF) :
  S ⊆ S' → eval_cnf v S' = true → eval_cnf v S = true.
Proof. rewrite !eval_cnf_true. intros Hs H c Hc. auto. Qed.

Lemma resolution_complete (clauses : CNF) :
  ∅ ∉ clauses → resolution clauses = false → satisfiable clauses.
Proof.
  intros Hemp Hres. pose proof (resolution_loop_answer clauses) as Hloop.
  rewrite Hres in Hloop.
  apply resolution_loop_saturates in Hloop as (S & HS & Hsat & HSe);
    [|done..|by intros].
  destruct (saturated_model (name <$> elements (literals_of S)) S) as [v Hv];
    [|done..|].
  - intros c l Hc Hl. apply list_elem_of_fmap. exists l. split; [done|].
    apply elem_of_elements. by apply (literals_of_spec S c).
  - exists v. by apply (eval_cnf_subseteq v clauses S).
Qed.

(** On clause sets that do not hold the empty clause, [resolution] decides
    unsatisfiability. *)
Lemma resolution_correct_without_empty_clause (clauses : CNF) :
  ∅ ∉ clauses → (resolution clauses = true ↔ ¬ satisfiable clauses).
Proof.
  intros Hemp. split; [apply resolution_sound|].
  intros Hun. destruct (resolution clauses) eqn:E; [done|].
  exfalso. by apply Hun, resolution_complete.
Qed.

(** C2 (failing input). On the clause set that holds only the empty clause
    there is no pair of different clauses, so no resolvent is ever built:
    [resolution] answers [False] although no assignment satisfies the empty
    clause. *)
Theorem resolution_empty_clause_input :
  resolution {[ ∅ ]} = false ∧ ¬ satisfiable {[ ∅ ]}.
Proof.
  split; [by vm_compute|].
  intros [v Hv]. rewrite eval_cnf_true in Hv.
  specialize (Hv ∅). rewrite eval_clause_true in Hv.
  destruct Hv as (l & Hl & _); set_solver.
Qed.

(** ** Dictionaries *)

Lemma dict_mem_true (k : Formula) (d : BeliefBase) :
  dict_mem k d = true ↔ ∃ e, e ∈ d ∧ formula_eqb e.1 k = true.
Proof.
  unfold dict_mem. rewrite existsb_exists.
  split; intros (e & He & E); exists e; by rewrite ?list_elem_of_In in *.
Qed.

Lemma dict_mem_false (k : Formula) (d : BeliefBase) :
  dict_mem k d = false ↔ ∀ e, e ∈ d → formula_eqb e.1 k = false.
Proof.
  rewrite <- not_true_iff_false, dict_mem_true. split.
  - intros H e He. apply not_true_iff_false. intros E. apply H. eauto.
  - intros H (e & He & E). by rewrite (H e He) in E.
Qed.

Lemma dict_wf_sublist (s d : BeliefBase) :
  s `sublist_of` d → dict_wf d → dict_wf s.
Proof.
  induction 1 as [|x s d Hs IH|x s d Hs IH]; cbn; [done|..].
  - intros [Hx Hd]. split; [|auto].
    rewrite dict_mem_false in Hx |- *. intros e He. apply Hx.
    by apply (sublist_subseteq _ _ Hs).
  - intros [_ Hd]. auto.
Qed.

Lemma dict_get_elem (d : BeliefBase) (e : Formula * Z) :
  dict_wf d → e ∈ d → dict_get e.1 d = Some e.2.
Proof.
  induction d as [|[k v] d IH]; cbn; intros Hwf He.
  - by apply elem_of_nil in He.
  - destruct Hwf as [Hk Hd]. apply elem_of_cons in He as [->|He].
    + cbn. by rewrite formula_eqb_refl.
    + rewrite dict_mem_false in Hk. specialize (Hk e He). cbn in Hk.
      rewrite formula_eqb_sym, Hk. auto.
Qed.

Lemma dict_eqb_refl (d : BeliefBase) : dict_wf d → dict_eqb d d = true.
Proof.
  intros Hwf. unfold dict_eqb. rewrite Nat.eqb_refl. cbn.
  apply forallb_forall. intros e He%list_elem_of_In.
  rewrite (dict_get_elem d e Hwf He). apply Z.eqb_refl.
Qed.

Lemma keys_issubset_true (d1 d2 : BeliefBase) :
  keys_issubset d1 d2 = true ↔ ∀ e, e ∈ d1 → dict_mem e.1 d2 = true.
Proof.
  unfold keys_issubset. rewrite forallb_forall.
  split; intros H e He; apply H; by rewrite ?list_elem_of_In in *.
Qed.

(** Two sub-dictionaries of one dictionary: when every key of the first is
    a key of the second, the first is a sublist of the second. *)
Lemma keys_issubset_sublist (d s1 s2 : BeliefBase) :
  dict_wf d → s1 `sublist_of` d → s2 `sublist_of` d →
  keys_issubset s1 s2 = true → s1 `sublist_of` s2.
Proof.
  revert s1 s2. induction d as [|x d IH]; intros s1 s2 Hwf H1 H2 Hk.
  - apply sublist_nil_r in H1 as ->. apply sublist_nil_l.
  - destruct Hwf as [Hx Hwf]. rewrite dict_mem_false in Hx.
    assert (Hdrop : ∀ s s', s `sublist_of` d →
              keys_issubset s (x :: s') = true → keys_issubset s s' = true).
    { intros s s' Hs Hss. rewrite keys_issubset_true in Hss |- *.
      intros e He. specialize (Hss e He). cbn in Hss.
      rewrite formula_eqb_sym, (Hx e) in Hss; [done|].
      by apply (sublist_subseteq _ _ Hs). }
    apply sublist_cons_r in H1 as [H1|(s1' & -> & H1)];
      apply sublist_cons_r in H2 as [H2|(s2' & -> & H2)].
    + by apply IH.
    + apply sublist_cons. apply IH; eauto.
    + exfalso. rewrite keys_issubset_true in Hk.
      specialize (Hk x (list_elem_of_here _ _)).
      apply dict_mem_true in Hk as (e & He & E).
      rewrite (Hx e) in E; [done|]. by apply (sublist_subseteq _ _ H2).
    + apply sublist_skip. apply IH; auto. apply (Hdrop _ _ H1).
      rewrite keys_issubset_true in Hk |- *. intros e He. apply Hk.
      by apply list_elem_of_further.
Qed.

Lemma sublist_full_length {A} (l1 l2 : list A) :
  l1 `sublist_of` l2 → length l2 ≤ length l1 → l1 = l2.
Proof.
  induction 1 as [|x l1 l2 H IH|x l1 l2 H IH]; cbn; intros Hlen; [done|..].
  - f_equal. apply IH. lia.
  - apply sublist_length in H. lia.
Qed.

Lemma dict_set_fresh (k : Formula) (v : Z) (d : BeliefBase) :
  dict_mem k d = false → dict_set k v d = d ++ [(k, v)].
Proof.
  induction d as [|[k' v'] d IH]; cbn; [done|].
  intros [E H]%orb_false_iff. rewrite E. f_equal. auto.
Qed.

Lemma dict_wf_snoc (l : BeliefBase) (x : Formula * Z) :
  dict_wf (l ++ [x]) → dict_mem x.1 l = false.
Proof.
  induction l as [|e l IH]; [done|]. intros [He Hwf].
  change (formula_eqb e.1 x.1 || dict_mem x.1 l = false).
  rewrite dict_mem_false in He. rewrite (IH Hwf), orb_false_r.
  rewrite formula_eqb_sym. apply He. apply elem_of_app. right.
  apply list_elem_of_here.
Qed.

(** *** The subsets of a belief base *)

Lemma mask_filter_sublist (i j : nat) (l : BeliefBase) :
  mask_filter i j l `sublist_of` l.
Proof.
  revert j. induction l as [|e l IH]; intros j; cbn; [done|].
  destruct (Nat.testbit i j); by constructor.
Qed.

Lemma mask_filter_snoc (i j : nat) (l : BeliefBase) (x : Formula * Z) :
  mask_filter i j (l ++ [x]) =
  mask_filter i j l ++ (if Nat.testbit i (j + length l) then [x] else []).
Proof.
  revert j. induction l as [|e l IH]; intros j; cbn.
  - rewrite Nat.add_0_r. by destruct (Nat.testbit i j).
  - rewrite IH. replace (S j + length l) with (j + S (length l)) by lia.
    by destruct (Nat.testbit i j).
Qed.

Lemma subset_upto_S (d : BeliefBase) (i n : nat) :
  subset_upto d i (S n) =
  if Nat.testbit i n then
    match d !! n with
    | Some (k, v) => dict_set k v (subset_upto d i n)
    | None => subset_upto d i n
    end
  else subset_upto d i n.
Proof. unfold subset_upto. by rewrite seq_S, foldl_snoc. Qed.

(** In a dictionary the assignments of [subset_upto] all add a new key. *)
Lemma subset_upto_mask (d : BeliefBase) (i n : nat) :
  dict_wf d → n ≤ length d → subset_upto d i n = mask_filter i 0 (take n d).
Proof.
  intros Hwf. induction n as [|n IH]; intros Hn; [done|].
  rewrite subset_upto_S, IH by lia.
  destruct (lookup_lt_is_Some_2 d n) as [[k v] Hx]; [lia|].
  rewrite Hx, (take_S_r _ _ _ Hx), mask_filter_snoc, length_take, Nat.min_l by lia.
  cbn. destruct (Nat.testbit i n); [|by rewrite app_nil_r].
  apply dict_set_fresh, dict_mem_false. intros e He.
  assert (Hk : dict_mem k (take n d) = false).
  { apply (dict_wf_snoc _ (k, v)). rewrite <- (take_S_r _ _ _ Hx).
    eapply dict_wf_sublist; [apply sublist_take|done]. }
  rewrite dict_mem_false in Hk. apply Hk.
  by apply (sublist_subseteq _ _ (mask_filter_sublist i 0 _)).
Qed.

Lemma subsets_of_sublist (B s : BeliefBase) :
  dict_wf B → s ∈ subsets_of B → s `sublist_of` B.
Proof.
  intros Hwf (i & -> & _)%list_elem_of_fmap.
  rewrite subset_upto_mask, firstn_all by done. apply mask_filter_sublist.
Qed.

Lemma mask_filter_0 (j : nat) (l : BeliefBase) : mask_filter 0 j l = [].
Proof.
  revert j. induction l as [|e l IH]; intros j; cbn; [done|].
  by rewrite Nat.bits_0.
Qed.

Lemma subsets_of_nil (B : BeliefBase) : dict_wf B → [] ∈ subsets_of B.
Proof.
  intros Hwf. apply list_elem_of_fmap. exists 0. split.
  - by rewrite subset_upto_mask, mask_filter_0.
  - apply elem_of_seq. pose proof (Nat.pow_nonzero 2 (length B)). lia.
Qed.

Lemma formula_eqb_trans (a b c : Formula) :
  formula_eqb a b = true → formula_eqb b c = true → formula_eqb a c = true.
Proof.
  revert b c.
  induction a as [n|f IH|l IHl r IHr|l IHl r IHr|l IHl r IHr|l IHl r IHr];
    intros [m|g|l' r'|l' r'|l' r'|l' r'] [m'|g'|l'' r''|l'' r''|l'' r''|l'' r''];
    cbn; try done;
    rewrite ?orb_true_iff, ?andb_true_iff, ?bool_decide_eq_true.
  - congruence.
  - apply IH.
  - intros [[]|[]] [[]|[]]; eauto 6.
  - intros [[]|[]] [[]|[]]; eauto 6.
  - intros [] []; eauto.
  - intros [[]|[]] [[]|[]]; eauto 6.
Qed.

Lemma dict_get_sublist (s d : BeliefBase) (f : Formula) :
  s `sublist_of` d → dict_wf d → dict_mem f s = true →
  dict_get f s = dict_get f d.
Proof.
  induction 1 as [|x s d Hs IH|x s d Hs IH]; intros Hwf Hf; [done|..].
  - destruct x as [k v], Hwf as [_ Hwf]. cbn.
    destruct (formula_eqb k f) eqn:E; [done|]. apply IH; [done|].
    unfold dict_mem in Hf |- *. cbn in Hf. by rewrite E in Hf.
  - destruct x as [k v], Hwf as [Hk Hwf]. cbn.
    destruct (formula_eqb k f) eqn:E; [|by apply IH]. exfalso.
    apply dict_mem_true in Hf as (e & He & Ee).
    rewrite dict_mem_false in Hk.
    assert (Hek : formula_eqb e.1 k = true).
    { apply (formula_eqb_trans _ f); [done|by rewrite formula_eqb_sym]. }
    assert (Hed : e ∈ d) by (by apply (sublist_subseteq _ _ Hs)).
    specialize (Hk e Hed). cbn in Hk. congruence.
Qed.

(** ** Selection of the best subset *)

Lemma insert_desc_not_nil x l : insert_desc x l ≠ [].
Proof. destruct l as [|y l]; cbn; [done|]. by destruct (_ <? _)%Z. Qed.

Lemma sort_desc_nil l : sort_desc l = [] → l = [].
Proof.
  destruct l as [|x l]; [done|]. cbn. intros H.
  by apply insert_desc_not_nil in H.
Qed.

Lemma sort_desc_head l b rest :
  sort_desc l = b :: rest → first_max snd l b.
Proof.
  revert b rest. induction l as [|x xs IH]; intros b rest; [done|].
  cbn [sort_desc foldr]. fold (sort_desc xs).
  destruct (sort_desc xs) as [|y r] eqn:E.
  - apply sort_desc_nil in E as ->. cbn. intros [= <- <-].
    exists [], []. by repeat split.
  - destruct (IH y r eq_refl) as (l1 & l2 & -> & F1 & F2).
    cbn [insert_desc]. destruct (x.2 <? y.2)%Z eqn:C; intros [= <- <-].
    + apply Z.ltb_lt in C. exists (x :: l1), l2.
      split; [done|]. split; [by constructor|done].
    + apply Z.ltb_ge in C. exists [], (l1 ++ y :: l2).
      split; [done|]. split; [constructor|].
      apply Forall_app. split; [|constructor].
      * eapply Forall_impl; [exact F1|]. cbn. lia.
      * done.
      * eapply Forall_impl; [exact F2|]. cbn. lia.
Qed.

Lemma select_best_subset_first_max (subsets : list BeliefBase) :
  subsets ≠ [] → first_max score subsets (select_best_subset subsets).
Proof.
  destruct subsets as [|s l]; [done|]. intros _. unfold select_best_subset.
  destruct (sort_desc _) as [|b rest] eqn:E.
  { by apply sort_desc_nil in E. }
  apply sort_desc_head in E as (l1 & l2 & E & F1 & F2).
  apply fmap_app_inv in E as (k1 & k2' & -> & E2 & ->). symmetry in E2.
  apply fmap_cons_inv in E2 as (x & k2 & -> & -> & ->).
  exists k1, k2. split; [done|].
  rewrite !Forall_fmap in F1, F2. done.
Qed.

Lemma select_best_subset_elem (subsets : list BeliefBase) :
  subsets ≠ [] → select_best_subset subsets ∈ subsets.
Proof.
  intros (l1 & l2 & E & _)%select_best_subset_first_max.
  rewrite E at 2. apply elem_of_app. right. apply list_elem_of_here.
Qed.

(** ** Contraction *)

Lemma non_entailing_subsets_spec (B : BeliefBase) (F : Formula) s :
  s ∈ non_entailing_subsets B F ↔ entails s F = false ∧ s ∈ subsets_of B.
Proof.
  unfold non_entailing_subsets.
  apply (list_elem_of_filter (λ subset, entails subset F = false)).
Qed.

Lemma find_maximal_spec (B : BeliefBase) (F : Formula) s :
  s ∈ find_maximal_non_entailing_subsets B F ↔
  is_maximal (non_entailing_subsets B F) s = true ∧
  s ∈ non_entailing_subsets B F.
Proof.
  unfold find_maximal_non_entailing_subsets.
  apply (list_elem_of_filter
           (λ subset1, is_maximal (non_entailing_subsets B F) subset1 = true)).
Qed.

Lemma exists_longest {A} (l : list (list A)) :
  l ≠ [] → ∃ s, s ∈ l ∧ ∀ s', s' ∈ l → length s' ≤ length s.
Proof.
  induction l as [|x l IH]; [done|]. intros _.
  destruct l as [|y l].
  - exists x. split; [apply list_elem_of_here|].
    by intros s' ->%list_elem_of_singleton.
  - destruct IH as (s & Hs & Hmax); [done|].
    destruct (decide (length s ≤ length x)).
    + exists x. split; [apply list_elem_of_here|].
      intros s' [->|Hs']%elem_of_cons; [done|]. specialize (Hmax s' Hs'). lia.
    + exists s. split; [by apply list_elem_of_further|].
      intros s' [->|Hs']%elem_of_cons; [lia|]. auto.
Qed.

(** A longest non-entailing subset passes the maximality filter. *)
Lemma find_maximal_nonempty (B : BeliefBase) (F : Formula) :
  dict_wf B → non_entailing_subsets B F ≠ [] →
  find_maximal_non_entailing_subsets B F ≠ [].
Proof.
  intros Hwf (s & Hs & Hmax)%exists_longest.
  assert (Hin : s ∈ find_maximal_non_entailing_subsets B F).
  { apply find_maximal_spec. split; [|done].
    unfold is_maximal. apply negb_true_iff, not_true_iff_false.
    intros (s2 & Hs2%list_elem_of_In & [Hne Hsub]%andb_true_iff)%existsb_exists.
    assert (Hs_sub : s `sublist_of` B).
    { apply subsets_of_sublist; [done|]. by apply non_entailing_subsets_spec in Hs as []. }
    assert (Hs2_sub : s2 `sublist_of` B).
    { apply subsets_of_sublist; [done|]. by apply non_entailing_subsets_spec in Hs2 as []. }
    pose proof (keys_issubset_sublist B s s2 Hwf Hs_sub Hs2_sub Hsub) as Hss.
    apply sublist_full_length in Hss; [|by apply Hmax]. subst s2.
    rewrite dict_eqb_refl in Hne; [done|]. by eapply dict_wf_sublist. }
  intros E. rewrite E in Hin. by apply elem_of_nil in Hin.
Qed.

Lemma entails_nil_not_tautology (F : Formula) :
  ¬ tautology F → entails [] F = false.
Proof.
  intros Hn. apply not_true_iff_false. intros E. apply Hn. intros v.
  apply resolution_sound in E. destruct (eval v F) eqn:Ev; [done|].
  exfalso. apply E. exists v. unfold all_clauses. cbn.
  rewrite eval_cnf_union, (proj2 (to_cnf_eval_both v F)), Ev, andb_true_r.
  by apply eval_cnf_true; intros c Hc%elem_of_empty.
Qed.

(** What [contract] returns: its argument, or a maximal non-entailing
    subset. *)
Lemma contract_cases (F : Formula) (B : BeliefBase) :
  contract F B = B ∨
  (entails B F = true ∧
   find_maximal_non_entailing_subsets B F ≠ [] ∧
   contract F B = select_best_subset (find_maximal_non_entailing_subsets B F)).
Proof.
  unfold contract. destruct (entails B F); cbn; [|by left].
  destruct (find_maximal_non_entailing_subsets B F) as [|m ms] eqn:E;
    [by left|right]. done.
Qed.

(** Inclusion: the contracted base is a sublist of the base. *)
Lemma contract_sublist (F : Formula) (B : BeliefBase) :
  dict_wf B → contract F B `sublist_of` B.
Proof.
  intros Hwf. destruct (contract_cases F B) as [->|(_ & Hne & ->)]; [done|].
  apply subsets_of_sublist; [done|].
  apply select_best_subset_elem in Hne.
  apply find_maximal_spec in Hne as [_ Hne].
  by apply non_entailing_subsets_spec in Hne as [].
Qed.

(** C3. Contraction success: on a belief base (a dict, so [dict_wf]) and a
    formula [F] that is not a tautology, the base after [contract F] does
    not entail [F]. *)
Theorem contract_success (B : BeliefBase) (F : Formula) :
  dict_wf B → ¬ tautology F → entails (contract F B) F = false.
Proof.
  intros Hwf Hn. unfold contract. destruct (entails B F) eqn:E; cbn; [|done].
  assert (Hne : find_maximal_non_entailing_subsets B F ≠ []).
  { apply find_maximal_nonempty; [done|].
    assert (H : [] ∈ non_entailing_subsets B F).
    { apply non_entailing_subsets_spec. split.
      - by apply entails_nil_not_tautology.
      - by apply subsets_of_nil. }
    intros E'. rewrite E' in H. by apply elem_of_nil in H. }
  destruct (find_maximal_non_entailing_subsets B F) as [|m ms] eqn:Em; [done|].
  rewrite <- Em in *. apply select_best_subset_elem in Hne.
  apply find_maximal_spec in Hne as [_ Hne].
  by apply non_entailing_subsets_spec in Hne as [].
Qed.

Lemma contract_success_witness :
  dict_wf scen_base ∧ ¬ tautology (Atom "q") ∧
  entails (contract (Atom "q") scen_base) (Atom "q") = false.
Proof.
  assert (H1 : dict_wf scen_base) by (by vm_compute).
  assert (H2 : ¬ tautology (Atom "q")).
  { intros H. discriminate (H (λ _, false)). }
  split; [exact H1|]. split; [exact H2|].
  exact (contract_success scen_base (Atom "q") H1 H2).
Defined.

(** C4. The scenario [p → q] (priority 2), [p] (priority 1): the base
    entails [q]; the maximal non-entailing subsets are [{p → q}] (score 2)
    and [{p}] (score 1); [contract q] leaves exactly [p → q], and the
    contracted base no longer entails [q]. *)
Theorem scenario_contract_q :
  entails scen_base (Atom "q") = true ∧
  find_maximal_non_entailing_subsets scen_base (Atom "q")
    = [[(scen_A, 2%Z)]; [(scen_B, 1%Z)]] ∧
  score [(scen_A, 2%Z)] = 2%Z ∧ score [(scen_B, 1%Z)] = 1%Z ∧
  contract (Atom "q") scen_base = [(scen_A, 2%Z)] ∧
  entails (contract (Atom "q") scen_base) (Atom "q") = false.
Proof. by vm_compute. Qed.

(** C6. Contraction vacuity: when the base does not entail [F],
    [contract F] returns the base as it is, entry by entry. *)
Theorem contract_vacuity (B : BeliefBase) (F : Formula) :
  entails B F = false → contract F B = B.
Proof. intros E. unfold contract. by rewrite E. Qed.

Lemma contract_vacuity_witness :
  entails [(Atom "p", 1%Z)] (Atom "q") = false ∧
  contract (Atom "q") [(Atom "p", 1%Z)] = [(Atom "p", 1%Z)].
Proof.
  assert (H : entails [(Atom "p", 1%Z)] (Atom "q") = false) by (by vm_compute).
  split; [exact H|]. exact (contract_vacuity _ _ H).
Defined.

(** C10. Contraction never alters priorities: a formula that is still a
    key after [contract F] has the priority it had before. *)
Theorem contract_keeps_priorities (B : BeliefBase) (F f : Formula) :
  dict_wf B → dict_mem f (contract F B) = true →
  get_priority f (contract F B) = get_priority f B.
Proof.
  intros Hwf Hf. unfold get_priority. f_equal.
  apply dict_get_sublist; [by apply contract_sublist|done..].
Qed.

Lemma contract_keeps_priorities_witness :
  dict_wf scen_base ∧
  dict_mem scen_A (contract (Atom "q") scen_base) = true ∧
  get_priority scen_A (contract (Atom "q") scen_base)
    = get_priority scen_A scen_base.
Proof.
  assert (H1 : dict_wf scen_base) by (by vm_compute).
  assert (H2 : dict_mem scen_A (contract (Atom "q") scen_base) = true)
    by (by vm_compute).
  split; [exact H1|]. split; [exact H2|].
  exact (contract_keeps_priorities scen_base (Atom "q") scen_A H1 H2).
Defined.

(** ** Determinism of contraction *)

Lemma formula_eqb_congr (a a' b b' : Formula) :
  formula_eqb a a' = true → formula_eqb b b' = true →
  formula_eqb a b = formula_eqb a' b'.
Proof.
  intros Ha Hb. apply eq_true_iff_eq. split; intros H.
  - apply (formula_eqb_trans _ a); [by rewrite formula_eqb_sym|].
    by apply (formula_eqb_trans _ b).
  - apply (formula_eqb_trans _ a'); [done|].
    apply (formula_eqb_trans _ b'); [done|by rewrite formula_eqb_sym].
Qed.

(** Equal formulas have the same clauses. *)
Lemma to_cnf_eqb_both (a b : Formula) :
  formula_eqb a b = true →
  to_cnf a = to_cnf b ∧ neg_to_cnf a = neg_to_cnf b.
Proof.
  revert b.
  induction a as [n|f IH|l IHl r IHr|l IHl r IHr|l IHl r IHr|l IHl r IHr];
    intros [m|g|l' r'|l' r'|l' r'|l' r']; cbn [formula_eqb]; try done;
    rewrite ?orb_true_iff, ?andb_true_iff; cbn [to_cnf neg_to_cnf].
  - by intros ->%bool_decide_eq_true.
  - intros [-> ->]%IH. done.
  - intros [[[-> ->]%IHl [-> ->]%IHr]|[[-> ->]%IHl [-> ->]%IHr]]; [done|].
    split; [apply (comm_L (∪))|apply distribute_comm].
  - intros [[[-> ->]%IHl [-> ->]%IHr]|[[-> ->]%IHl [-> ->]%IHr]]; [done|].
    split; [apply distribute_comm|apply (comm_L (∪))].
  - intros [[-> ->]%IHl [-> ->]%IHr]. done.
  - intros [[[-> ->]%IHl [-> ->]%IHr]|[[-> ->]%IHl [-> ->]%IHr]]; [done|].
    split; [apply (comm_L (∪))|].
    rewrite distribute_comm.
    by rewrite (comm_L (∪) (neg_to_cnf r')), (comm_L (∪) (to_cnf r')).
Qed.

Lemma all_clauses_same (B1 B2 : BeliefBase) (F : Formula) :
  bb_same B1 B2 → all_clauses B1 F = all_clauses B2 F.
Proof.
  intros H. unfold all_clauses. f_equal.
  induction H as [|e1 e2 B1 B2 [He _] _ IH]; [done|].
  cbn. rewrite IH. by apply to_cnf_eqb_both in He as [-> _].
Qed.

Lemma entails_same (B1 B2 : BeliefBase) (F : Formula) :
  bb_same B1 B2 → entails B1 F = entails B2 F.
Proof. intros H. unfold entails. by rewrite (all_clauses_same B1 B2). Qed.

Lemma dict_mem_same (d1 d2 : BeliefBase) (k1 k2 : Formula) :
  bb_same d1 d2 → formula_eqb k1 k2 = true →
  dict_mem k1 d1 = dict_mem k2 d2.
Proof.
  intros H Hk. unfold dict_mem.
  induction H as [|e1 e2 d1 d2 [He _] _ IH]; [done|].
  cbn. by rewrite IH, (formula_eqb_congr e1.1 e2.1 k1 k2).
Qed.

Lemma dict_get_same (d1 d2 : BeliefBase) (k1 k2 : Formula) :
  bb_same d1 d2 → formula_eqb k1 k2 = true →
  dict_get k1 d1 = dict_get k2 d2.
Proof.
  intros H Hk.
  induction H as [|[a1 v1] [a2 v2] d1 d2 [He Hv] _ IH]; [done|].
  cbn in *. subst v2. by rewrite IH, (formula_eqb_congr a1 a2 k1 k2).
Qed.

Lemma dict_set_same (d1 d2 : BeliefBase) (k1 k2 : Formula) (v : Z) :
  bb_same d1 d2 → formula_eqb k1 k2 = true →
  bb_same (dict_set k1 v d1) (dict_set k2 v d2).
Proof.
  intros H Hk.
  induction H as [|[a1 v1] [a2 v2] d1 d2 [He Hv] H IH]; cbn in *.
  - by repeat constructor.
  - rewrite (formula_eqb_congr a1 a2 k1 k2) by done.
    destruct (formula_eqb a2 k2); by repeat constructor.
Qed.

Lemma subset_upto_same (B1 B2 : BeliefBase) (i n : nat) :
  bb_same B1 B2 → bb_same (subset_upto B1 i n) (subset_upto B2 i n).
Proof.
  intros H. induction n as [|n IH]; [constructor|].
  rewrite !subset_upto_S. destruct (Nat.testbit i n); [|done].
  pose proof (proj1 (Forall2_lookup _ _ _) H n) as Hn.
  destruct Hn as [[k1 v1] [k2 v2] [Hk Hv]|]; [|done].
  cbn in *. subst v2. by apply dict_set_same.
Qed.

Lemma subsets_of_same (B1 B2 : BeliefBase) :
  bb_same B1 B2 → Forall2 bb_same (subsets_of B1) (subsets_of B2).
Proof.
  intros H. unfold subsets_of. rewrite <- (Forall2_length _ _ _ H).
  apply Forall2_fmap, Forall_Forall2_diag, Forall_forall.
  intros i _. by apply subset_upto_same.
Qed.

Lemma dict_eqb_same (s1 s2 t1 t2 : BeliefBase) :
  bb_same s1 t1 → bb_same s2 t2 → dict_eqb s1 s2 = dict_eqb t1 t2.
Proof.
  intros H1 H2. unfold dict_eqb.
  rewrite (Forall2_length _ _ _ H1), (Forall2_length _ _ _ H2). f_equal.
  induction H1 as [|[a1 v1] [a2 v2] s1 t1 [He Hv] _ IH]; [done|].
  cbn in *. subst v2. by rewrite IH, (dict_get_same s2 t2 a1 a2).
Qed.

Lemma keys_issubset_same (s1 s2 t1 t2 : BeliefBase) :
  bb_same s1 t1 → bb_same s2 t2 →
  keys_issubset s1 s2 = keys_issubset t1 t2.
Proof.
  intros H1 H2. unfold keys_issubset.
  induction H1 as [|e1 e2 s1 t1 [He _] _ IH]; [done|].
  cbn. by rewrite IH, (dict_mem_same s2 t2 e1.1 e2.1).
Qed.

Lemma is_maximal_same (l1 l2 : list BeliefBase) (s1 s2 : BeliefBase) :
  Forall2 bb_same l1 l2 → bb_same s1 s2 →
  is_maximal l1 s1 = is_maximal l2 s2.
Proof.
  intros Hl Hs. unfold is_maximal. f_equal.
  induction Hl as [|x y l1 l2 Hxy _ IH]; [done|].
  cbn. by rewrite IH, (dict_eqb_same s1 x s2 y), (keys_issubset_same s1 x s2 y).
Qed.

Lemma find_maximal_same (B1 B2 : BeliefBase) (F : Formula) :
  bb_same B1 B2 →
  Forall2 bb_same (find_maximal_non_entailing_subsets B1 F)
                  (find_maximal_non_entailing_subsets B2 F).
Proof.
  intros H. unfold find_maximal_non_entailing_subsets.
  assert (Hne : Forall2 bb_same (non_entailing_subsets B1 F)
                                (non_entailing_subsets B2 F)).
  { unfold non_entailing_subsets.
    apply (Forall2_filter bb_same (λ s, entails s F = false)
                                  (λ s, entails s F = false)).
    - intros x y Hxy. by rewrite (entails_same x y).
    - by apply subsets_of_same. }
  apply (Forall2_filter bb_same
           (λ s, is_maximal (non_entailing_subsets B1 F) s = true)
           (λ s, is_maximal (non_entailing_subsets B2 F) s = true)); [|done].
  intros x y Hxy. by rewrite (is_maximal_same _ _ x y Hne Hxy).
Qed.

Lemma score_same (s1 s2 : BeliefBase) : bb_same s1 s2 → score s1 = score s2.
Proof.
  induction 1 as [|e1 e2 s1 s2 [_ Hv] _ IH]; [done|].
  unfold score in *. cbn. by rewrite IH, Hv.
Qed.

Lemma insert_desc_same x y l k :
  scored_same x y → Forall2 scored_same l k →
  Forall2 scored_same (insert_desc x l) (insert_desc y k).
Proof.
  intros Hxy H. induction H as [|a b l k Hab H IH]; cbn.
  - constructor; [done|constructor].
  - rewrite (proj2 Hxy), (proj2 Hab).
    destruct (_ <? _)%Z; constructor; auto.
Qed.

Lemma sort_desc_same l k :
  Forall2 scored_same l k → Forall2 scored_same (sort_desc l) (sort_desc k).
Proof.
  induction 1 as [|x y l k Hxy H IH]; cbn; [constructor|].
  by apply insert_desc_same.
Qed.

Lemma select_best_subset_same (l1 l2 : list BeliefBase) :
  Forall2 bb_same l1 l2 →
  bb_same (select_best_subset l1) (select_best_subset l2).
Proof.
  intros H. unfold select_best_subset.
  assert (Hs : Forall2 scored_same
                 (sort_desc ((λ subset, (subset, score subset)) <$> l1))
                 (sort_desc ((λ subset, (subset, score subset)) <$> l2))).
  { apply sort_desc_same, Forall2_fmap.
    eapply Forall2_impl; [exact H|]. intros x y Hxy.
    split; [done|by apply score_same]. }
  destruct H as [|x y l1 l2 Hxy H]; [constructor|].
  destruct Hs as [|a b ? ? [Hab _] _]; [constructor|done].
Qed.

Lemma contract_same (F : Formula) (B1 B2 : BeliefBase) :
  bb_same B1 B2 → bb_same (contract F B1) (contract F B2).
Proof.
  intros H. unfold contract. rewrite (entails_same B1 B2 F H).
  destruct (entails B2 F); cbn; [|done].
  pose proof (find_maximal_same B1 B2 F H) as Hm.
  pose proof (select_best_subset_same _ _ Hm) as Hb.
  destruct Hm; [done|exact Hb].
Qed.

(** C9. Contraction selection is deterministic: belief bases with equal
    contents (same formulas, same priorities, same insertion order)
    contract to belief bases with equal contents; and whenever [contract]
    selects a subset, that subset has the highest score among the maximal
    non-entailing subsets and is the first of them, in enumeration order,
    with that score. *)
Theorem contract_deterministic (F : Formula) (B1 B2 : BeliefBase) :
  bb_same B1 B2 →
  bb_same (contract F B1) (contract F B2) ∧
  (entails B1 F = true →
   find_maximal_non_entailing_subsets B1 F ≠ [] →
   first_max score (find_maximal_non_entailing_subsets B1 F) (contract F B1)).
Proof.
  intros H. split; [by apply contract_same|]. intros He Hne.
  destruct (contract_cases F B1) as [E|(_ & _ & ->)].
  - unfold contract in E |- *. rewrite He in E |- *. cbn in *.
    destruct (find_maximal_non_entailing_subsets B1 F) eqn:Em; [done|].
    by apply select_best_subset_first_max.
  - by apply select_best_subset_first_max.
Qed.

Lemma contract_deterministic_witness :
  bb_same comm_base1 comm_base2 ∧
  bb_same (contract (Atom "q") comm_base1) (contract (Atom "q") comm_base2) ∧
  first_max score (find_maximal_non_entailing_subsets comm_base1 (Atom "q"))
            (contract (Atom "q") comm_base1).
Proof.
  assert (H : bb_same comm_base1 comm_base2).
  { repeat constructor. }
  assert (He : entails comm_base1 (Atom "q") = true) by (by vm_compute).
  assert (Hne : find_maximal_non_entailing_subsets comm_base1 (Atom "q") ≠ [])
    by (by vm_compute).
  split; [exact H|].
  destruct (contract_deterministic (Atom "q") _ _ H) as [H1 H2].
  split; [exact H1|exact (H2 He Hne)].
Defined.

(** On a tie the first maximal subset in enumeration order is kept: with
    [p → q] and [p] both at priority 1, contracting [q] keeps [p → q]. *)
Example contract_tie_keeps_first :
  find_maximal_non_entailing_subsets tie_base (Atom "q")
    = [[(scen_A, 1%Z)]; [(scen_B, 1%Z)]] ∧
  contract (Atom "q") tie_base = [(scen_A, 1%Z)].
Proof. by vm_compute. Qed.

(** ** The dictionary invariant is kept by every operation *)

Lemma dict_mem_dict_set (a k : Formula) (v : Z) (d : BeliefBase) :
  dict_mem a d = false → formula_eqb k a = false →
  dict_mem a (dict_set k v d) = false.
Proof.
  intros Hd Hk. induction d as [|[k' v'] d IH]; cbn.
  - by rewrite Hk.
  - unfold dict_mem in Hd. cbn in Hd. apply orb_false_iff in Hd as [E Hd].
    destruct (formula_eqb k' k); cbn; rewrite E; cbn; [done|by apply IH].
Qed.

Lemma dict_set_wf (k : Formula) (v : Z) (d : BeliefBase) :
  dict_wf d → dict_wf (dict_set k v d).
Proof.
  induction d as [|[k' v'] d IH]; cbn; [done|]. intros [Hk Hd].
  destruct (formula_eqb k' k) eqn:E; cbn; [done|]. split; [|auto].
  apply dict_mem_dict_set; [done|]. by rewrite formula_eqb_sym.
Qed.

Lemma dict_del_sublist (k : Formula) (d : BeliefBase) :
  dict_del k d `sublist_of` d.
Proof.
  induction d as [|[k' v'] d IH]; cbn; [done|].
  destruct (formula_eqb k' k); by constructor.
Qed.

Lemma add_belief_wf (formula : Formula) (priority : Z) (B : BeliefBase) :
  dict_wf B → dict_wf (add_belief formula priority B).
Proof. apply dict_set_wf. Qed.

Lemma remove_belief_wf (formula : Formula) (B : BeliefBase) :
  dict_wf B → dict_wf (remove_belief formula B).
Proof.
  intros H. unfold remove_belief. destruct (dict_mem formula B); [|done].
  eapply dict_wf_sublist; [apply dict_del_sublist|done].
Qed.

Lemma contract_wf (formula : Formula) (B : BeliefBase) :
  dict_wf B → dict_wf (contract formula B).
Proof. intros H. eapply dict_wf_sublist; [by apply contract_sublist|done]. Qed.

Lemma revise_wf (formula : Formula) (priority : Z) (B : BeliefBase) :
  dict_wf B → dict_wf (revise formula priority B).
Proof. intros H. by apply add_belief_wf, contract_wf. Qed.

(** * Further properties of the code *)

(** ** The dictionary operations of the belief base *)

Lemma dict_get_dict_set_same (f g : Formula) (p : Z) (d : BeliefBase) :
  formula_eqb f g = true → dict_get g (dict_set f p d) = Some p.
Proof.
  intros Hfg. induction d as [|[k v] d IH]; cbn.
  - by rewrite Hfg.
  - destruct (formula_eqb k f) eqn:E; cbn.
    + by rewrite (formula_eqb_trans k f g).
    + destruct (formula_eqb k g) eqn:Eg; [|done].
      rewrite (formula_eqb_trans k g f) in E; [done..|].
      by rewrite formula_eqb_sym.
Qed.

Lemma dict_get_dict_set_other (f g : Formula) (p : Z) (d : BeliefBase) :
  formula_eqb f g = false → dict_get g (dict_set f p d) = dict_get g d.
Proof.
  intros Hfg. induction d as [|[k v] d IH]; cbn.
  - by rewrite Hfg.
  - destruct (formula_eqb k f) eqn:E; cbn; [|by rewrite IH].
    destruct (formula_eqb k g) eqn:Eg; [|done].
    rewrite (formula_eqb_trans f k g) in Hfg; [done| |done].
    by rewrite formula_eqb_sym.
Qed.

Lemma dict_get_absent (f : Formula) (d : BeliefBase) :
  dict_mem f d = false → dict_get f d = None.
Proof.
  induction d as [|[k v] d IH]; [done|]. unfold dict_mem. cbn.
  intros [E H]%orb_false_iff. rewrite E. by apply IH.
Qed.

Lemma dict_mem_cons (f : Formula) (e : Formula * Z) (d : BeliefBase) :
  dict_mem f (e :: d) = formula_eqb e.1 f || dict_mem f d.
Proof. reflexivity. Qed.

Lemma dict_mem_dict_set_same (f g : Formula) (p : Z) (d : BeliefBase) :
  formula_eqb f g = true → dict_mem g (dict_set f p d) = true.
Proof.
  intros Hfg. induction d as [|[k v] d IH]; cbn [dict_set].
  - unfold dict_mem. cbn. by rewrite Hfg.
  - destruct (formula_eqb k f) eqn:E; rewrite dict_mem_cons; cbn [fst].
    + by rewrite (formula_eqb_trans k f g).
    + rewrite IH. apply orb_true_r.
Qed.

Lemma dict_del_removes (f : Formula) (d : BeliefBase) :
  dict_wf d → dict_mem f (dict_del f d) = false.
Proof.
  induction d as [|[k v] d IH]; [done|]. intros [Hk Hwf]. cbn [dict_del].
  destruct (formula_eqb k f) eqn:E.
  - apply dict_mem_false. intros e He. apply not_true_iff_false. intros Ee.
    rewrite dict_mem_false in Hk. specialize (Hk e He). cbn in Hk.
    rewrite (formula_eqb_trans e.1 f k) in Hk; [done..|].
    by rewrite formula_eqb_sym.
  - rewrite dict_mem_cons. cbn [fst]. by rewrite E, IH.
Qed.

Lemma dict_get_dict_del_other (f g : Formula) (d : BeliefBase) :
  formula_eqb f g = false → dict_get g (dict_del f d) = dict_get g d.
Proof.
  intros Hfg. induction d as [|[k v] d IH]; [done|]. cbn.
  destruct (formula_eqb k f) eqn:E; cbn; [|by rewrite IH].
  destruct (formula_eqb k g) eqn:Eg; [|done].
  rewrite (formula_eqb_trans f k g) in Hfg; [done| |done].
  by rewrite formula_eqb_sym.
Qed.

Lemma dict_del_absent (f : Formula) (d : BeliefBase) :
  dict_mem f d = false → dict_del f d = d.
Proof.
  induction d as [|[k v] d IH]; [done|]. rewrite dict_mem_cons. cbn [fst].
  intros [E H]%orb_false_iff. cbn. rewrite E. f_equal. by apply IH.
Qed.

Lemma dict_del_snoc (f : Formula) (p : Z) (d : BeliefBase) :
  dict_mem f d = false → dict_del f (d ++ [(f, p)]) = d.
Proof.
  induction d as [|[k v] d IH].
  - intros _. cbn. by rewrite formula_eqb_refl.
  - rewrite dict_mem_cons. cbn [fst]. intros [E H]%orb_false_iff.
    cbn. rewrite E. f_equal. by apply IH.
Qed.

Lemma dict_set_keys (f : Formula) (p : Z) (d : BeliefBase) :
  (dict_set f p d).*1 = if dict_mem f d then d.*1 else d.*1 ++ [f].
Proof.
  induction d as [|[k v] d IH]; [done|].
  rewrite dict_mem_cons. cbn [fst dict_set].
  destruct (formula_eqb k f) eqn:E; cbn [orb]; [done|].
  rewrite fmap_cons, IH. by destruct (dict_mem f d).
Qed.

(** X1. Lookup after insertion: after [add_belief f p], [get_priority]
    gives [p] for [f] and for every formula equal to [f] under [__eq__]. *)
Theorem get_priority_add_belief (f g : Formula) (p : Z) (B : BeliefBase) :
  formula_eqb f g = true → get_priority g (add_belief f p B) = p.
Proof.
  intros H. unfold get_priority, add_belief.
  by rewrite (dict_get_dict_set_same f g p B H).
Qed.

Lemma get_priority_add_belief_witness :
  formula_eqb (Conjunction (Atom "p") (Atom "q"))
              (Conjunction (Atom "q") (Atom "p")) = true ∧
  get_priority (Conjunction (Atom "q") (Atom "p"))
    (add_belief (Conjunction (Atom "p") (Atom "q")) 7 scen_base) = 7%Z.
Proof.
  assert (H : formula_eqb (Conjunction (Atom "p") (Atom "q"))
                          (Conjunction (Atom "q") (Atom "p")) = true)
    by reflexivity.
  split; [exact H|]. exact (get_priority_add_belief _ _ 7 scen_base H).
Defined.

(** X2. [add_belief f p] leaves the priority of every formula that is not
    equal to [f] as it was. *)
Theorem get_priority_add_belief_other (f g : Formula) (p : Z) (B : BeliefBase) :
  formula_eqb f g = false →
  get_priority g (add_belief f p B) = get_priority g B.
Proof.
  intros H. unfold get_priority, add_belief.
  by rewrite (dict_get_dict_set_other f g p B H).
Qed.

Lemma get_priority_add_belief_other_witness :
  formula_eqb (Atom "r") scen_A = false ∧
  get_priority scen_A (add_belief (Atom "r") 9 scen_base)
    = get_priority scen_A scen_base.
Proof.
  assert (H : formula_eqb (Atom "r") scen_A = false) by reflexivity.
  split; [exact H|]. exact (get_priority_add_belief_other _ _ 9 scen_base H).
Defined.

(** X3. A formula that is no key of the base has priority 0: an absent
    belief is no error. *)
Theorem get_priority_absent (f : Formula) (B : BeliefBase) :
  dict_mem f B = false → get_priority f B = 0%Z.
Proof. intros H. unfold get_priority. by rewrite (dict_get_absent f B H). Qed.

Lemma get_priority_absent_witness :
  dict_mem (Atom "q") scen_base = false ∧
  get_priority (Atom "q") scen_base = 0%Z.
Proof.
  assert (H : dict_mem (Atom "q") scen_base = false) by reflexivity.
  split; [exact H|]. exact (get_priority_absent _ _ H).
Defined.

(** X4. After [remove_belief f] the formula is no key of the base any
    more and its priority reads 0. *)
Theorem remove_belief_removes (f : Formula) (B : BeliefBase) :
  dict_wf B →
  dict_mem f (remove_belief f B) = false ∧
  get_priority f (remove_belief f B) = 0%Z.
Proof.
  intros Hwf.
  assert (H : dict_mem f (remove_belief f B) = false).
  { unfold remove_belief. destruct (dict_mem f B) eqn:E; [|done].
    by apply dict_del_removes. }
  split; [done|]. unfold get_priority. by rewrite (dict_get_absent _ _ H).
Qed.

Lemma remove_belief_removes_witness :
  dict_wf scen_base ∧
  dict_mem scen_A (remove_belief scen_A scen_base) = false ∧
  get_priority scen_A (remove_belief scen_A scen_base) = 0%Z.
Proof.
  assert (H : dict_wf scen_base) by (by vm_compute).
  split; [exact H|]. exact (remove_belief_removes scen_A scen_base H).
Defined.

(** X5. [remove_belief f] leaves the priority of every formula that is not
    equal to [f] as it was. *)
Theorem get_priority_remove_belief_other (f g : Formula) (B : BeliefBase) :
  formula_eqb f g = false →
  get_priority g (remove_belief f B) = get_priority g B.
Proof.
  intros H. unfold get_priority, remove_belief.
  destruct (dict_mem f B); [|done]. by rewrite (dict_get_dict_del_other f g B H).
Qed.

Lemma get_priority_remove_belief_other_witness :
  formula_eqb scen_A scen_B = false ∧
  get_priority scen_B (remove_belief scen_A scen_base)
    = get_priority scen_B scen_base.
Proof.
  assert (H : formula_eqb scen_A scen_B = false) by reflexivity.
  split; [exact H|]. exact (get_priority_remove_belief_other _ _ scen_base H).
Defined.

(** X6. Adding a formula that is no key yet and removing it again gives
    the base back, entry by entry. *)
Theorem remove_belief_add_belief (f : Formula) (p : Z) (B : BeliefBase) :
  dict_mem f B = false → remove_belief f (add_belief f p B) = B.
Proof.
  intros H. unfold remove_belief, add_belief.
  rewrite (dict_mem_dict_set_same f f p B (formula_eqb_refl f)).
  rewrite (dict_set_fresh f p B H). by apply dict_del_snoc.
Qed.

Lemma remove_belief_add_belief_witness :
  dict_mem (Atom "q") scen_base = false ∧
  remove_belief (Atom "q") (add_belief (Atom "q") 5 scen_base) = scen_base.
Proof.
  assert (H : dict_mem (Atom "q") scen_base = false) by reflexivity.
  split; [exact H|]. exact (remove_belief_add_belief _ 5 _ H).
Defined.

(** X7. Insertion order of [get_beliefs]: [add_belief] of a formula equal
    to a key keeps the list of keys as it is (the stored formula stays,
    also when the new one is written with its children swapped); a new
    formula goes to the end. *)
Theorem get_beliefs_add_belief (f : Formula) (p : Z) (B : BeliefBase) :
  get_beliefs (add_belief f p B) =
  if dict_mem f B then get_beliefs B else get_beliefs B ++ [f].
Proof. apply dict_set_keys. Qed.

(** X8. The last priority wins: adding a formula twice is adding it once
    with the second priority. *)
Theorem add_belief_twice (f : Formula) (p1 p2 : Z) (B : BeliefBase) :
  add_belief f p2 (add_belief f p1 B) = add_belief f p2 B.
Proof.
  unfold add_belief. induction B as [|[k v] B IH]; cbn.
  - by rewrite formula_eqb_refl.
  - destruct (formula_eqb k f) eqn:E; cbn; rewrite E; [done|]. by rewrite IH.
Qed.

(** ** Equality of formulas and their meaning *)

Lemma eval_eqb v (a b : Formula) :
  formula_eqb a b = true → eval v a = eval v b.
Proof.
  revert b.
  induction a as [n|f IH|l IHl r IHr|l IHl r IHr|l IHl r IHr|l IHl r IHr];
    intros [m|g|l' r'|l' r'|l' r'|l' r']; cbn [formula_eqb eval]; try done;
    rewrite ?orb_true_iff, ?andb_true_iff.
  - by intros ->%bool_decide_eq_true.
  - intros H. by rewrite (IH _ H).
  - intros [[H1 H2]|[H1 H2]]; rewrite (IHl _ H1), (IHr _ H2);
      [done|apply andb_comm].
  - intros [[H1 H2]|[H1 H2]]; rewrite (IHl _ H1), (IHr _ H2);
      [done|apply orb_comm].
  - intros [H1 H2]. by rewrite (IHl _ H1), (IHr _ H2).
  - intros [[H1 H2]|[H1 H2]]; rewrite (IHl _ H1), (IHr _ H2); [done|].
    by destruct (eval v l'), (eval v r').
Qed.

(** X9. [__eq__] on formulas is an equivalence relation: reflexive,
    symmetric and transitive, as keys of a dict must be. *)
Theorem formula_eqb_equivalence :
  Equivalence (λ a b : Formula, formula_eqb a b = true).
Proof.
  split.
  - intros a. apply formula_eqb_refl.
  - intros a b H. by rewrite formula_eqb_sym.
  - intros a b c. apply formula_eqb_trans.
Qed.

(** X10. Formulas that are equal under [__eq__] are logically equivalent
    and have the same CNF: swapping the children of a symmetric connective
    changes neither the truth value nor the clause set. *)
Theorem formula_eqb_same_meaning (a b : Formula) (v : assignment) :
  formula_eqb a b = true → eval v a = eval v b ∧ to_cnf a = to_cnf b.
Proof.
  intros H. split; [by apply eval_eqb|]. by apply to_cnf_eqb_both in H as [].
Qed.

Lemma formula_eqb_same_meaning_witness :
  formula_eqb (Biconditional (Atom "p") (Negation (Atom "q")))
              (Biconditional (Negation (Atom "q")) (Atom "p")) = true ∧
  eval (λ _, true) (Biconditional (Atom "p") (Negation (Atom "q")))
    = eval (λ _, true) (Biconditional (Negation (Atom "q")) (Atom "p")) ∧
  to_cnf (Biconditional (Atom "p") (Negation (Atom "q")))
    = to_cnf (Biconditional (Negation (Atom "q")) (Atom "p")).
Proof.
  assert (H : formula_eqb (Biconditional (Atom "p") (Negation (Atom "q")))
                (Biconditional (Negation (Atom "q")) (Atom "p")) = true)
    by reflexivity.
  split; [exact H|]. exact (formula_eqb_same_meaning _ _ (λ _, true) H).
Defined.

(** ** Clauses *)

(** X11. The test [is_tautology] is exact: a clause holds a literal and
    its negation if and only if it is true under every assignment. *)
Theorem is_tautology_exact (c : Clause) :
  is_tautology c = true ↔ ∀ v, eval_clause v c = true.
Proof.
  split; [intros H v; by apply eval_clause_tautology|].
  intros H. destruct (is_tautology c) eqn:E; [done|]. exfalso.
  rewrite is_tautology_false in E.
  set (v := λ n : string, bool_decide (mkLiteral n true ∈ c)).
  specialize (H v). apply eval_clause_true in H as ([n s] & Hl & Hv).
  unfold eval_literal, v in Hv. cbn in Hv. destruct s.
  - apply negb_true_iff, bool_decide_eq_false in Hv. done.
  - apply bool_decide_eq_true in Hv. by apply (E _ Hl).
Qed.

(** X12. [CNF.add_clause] keeps the meaning of a conjunction: the clause
    set after the call is true exactly when the clause and the old set
    are, whether the clause was added or dropped as a tautology; and a
    set without tautologies stays without. *)
Theorem add_clause_meaning (clause : Clause) (clauses : CNF) (v : assignment) :
  eval_cnf v (add_clause clause clauses)
    = eval_clause v clause && eval_cnf v clauses ∧
  ((∀ c, c ∈ clauses → is_tautology c = false) →
   ∀ c, c ∈ add_clause clause clauses → is_tautology c = false).
Proof.
  unfold add_clause. destruct (is_tautology clause) eqn:E; cbn.
  - split; [|done]. by rewrite (eval_clause_tautology v clause E).
  - split.
    + rewrite eval_cnf_union. f_equal.
      apply eq_true_iff_eq. rewrite eval_cnf_true. split.
      * intros H. apply H. by apply elem_of_singleton.
      * by intros H c ->%elem_of_singleton.
    + intros H c [->%elem_of_singleton|Hc]%elem_of_union; auto.
Qed.

(** ** Resolution *)

(** X13. Every resolvent of two clauses is a subset of their union, is no
    tautology, and is true under every assignment that makes both clauses
    true. *)
Theorem resolve_resolvent (c1 c2 r : Clause) (v : assignment) :
  r ∈ resolve c1 c2 →
  r ⊆ c1 ∪ c2 ∧ is_tautology r = false ∧
  (eval_clause v c1 = true → eval_clause v c2 = true →
   eval_clause v r = true).
Proof.
  intros H. split; [by apply resolve_subseteq|]. split.
  - by apply elem_of_resolve in H as (? & ? & _ & _ & _ & _ & ?).
  - by apply resolve_sound.
Qed.

Lemma resolve_resolvent_witness :
  ({[ mkLiteral "q" false ]} : Clause)
    ∈ resolve {[ mkLiteral "p" true; mkLiteral "q" false ]}
              {[ mkLiteral "p" false ]} ∧
  ({[ mkLiteral "q" false ]} : Clause)
    ⊆ {[ mkLiteral "p" true; mkLiteral "q" false ]} ∪ {[ mkLiteral "p" false ]} ∧
  is_tautology {[ mkLiteral "q" false ]} = false ∧
  (eval_clause (λ _, true) {[ mkLiteral "p" true; mkLiteral "q" false ]} = true →
   eval_clause (λ _, true) {[ mkLiteral "p" false ]} = true →
   eval_clause (λ _, true) {[ mkLiteral "q" false ]} = true).
Proof.
  assert (H : ({[ mkLiteral "q" false ]} : Clause)
                ∈ resolve {[ mkLiteral "p" true; mkLiteral "q" false ]}
                          {[ mkLiteral "p" false ]}).
  { apply (bool_decide_unpack _). vm_compute. exact I. }
  split; [exact H|]. exact (resolve_resolvent _ _ _ (λ _, true) H).
Defined.

(** X14. [resolve] does not depend on the order of its arguments, and a
    clause has no resolvent with itself: the pairs [(c, c)] that
    [resolution] leaves out would add nothing. *)
Theorem resolve_symmetric (c1 c2 r : Clause) :
  (r ∈ resolve c1 c2 ↔ r ∈ resolve c2 c1) ∧ resolve c1 c1 = [].
Proof.
  split; [split; apply resolve_comm|].
  destruct (resolve c1 c1) as [|x l] eqn:E; [done|]. exfalso.
  apply (resolve_self c1 x). rewrite E. apply list_elem_of_here.
Qed.

(** X15. [resolution] is sound on every clause set and complete on every
    clause set that does not hold the empty clause: the answer [True] is
    only given on unsatisfiable sets, and on an unsatisfiable set without
    the empty clause the answer is [True]. *)
Theorem resolution_sound_and_complete (clauses : CNF) :
  (resolution clauses = true → ¬ satisfiable clauses) ∧
  (∅ ∉ clauses → ¬ satisfiable clauses → resolution clauses = true).
Proof.
  split; [apply resolution_sound|]. intros Hemp Hun.
  destruct (resolution clauses) eqn:E; [done|].
  exfalso. by apply Hun, resolution_complete.
Qed.

(** ** Entailment *)

Lemma distribute_nonempty (X Y : CNF) :
  (∀ c, c ∈ X → c ≠ ∅) → ∀ c, c ∈ distribute X Y → c ≠ ∅.
Proof.
  intros HX c (a & b & Ha & _ & -> & _)%elem_of_distribute E.
  apply (HX a Ha). apply set_eq. intros l. split; [|by intros ?%elem_of_empty].
  intros Hl. rewrite <- E. by apply elem_of_union_l.
Qed.

Lemma to_cnf_nonempty_both (f : Formula) :
  (∀ c, c ∈ to_cnf f → c ≠ ∅) ∧ (∀ c, c ∈ neg_to_cnf f → c ≠ ∅).
Proof.
  assert (Hunit : ∀ (l : Literal) (c : Clause), c ∈ ({[ {[ l ]} ]} : CNF) → c ≠ ∅).
  { intros l c ->%elem_of_singleton E.
    apply (not_elem_of_empty (C:=Clause) l). rewrite <- E.
    by apply elem_of_singleton. }
  assert (Hunion : ∀ X Y : CNF, (∀ c, c ∈ X → c ≠ ∅) → (∀ c, c ∈ Y → c ≠ ∅) →
                                ∀ c, c ∈ X ∪ Y → c ≠ ∅).
  { intros X Y HX HY c [?|?]%elem_of_union; auto. }
  induction f as [n|g [IHp IHn]|l [IHlp IHln] r [IHrp IHrn]
                 |l [IHlp IHln] r [IHrp IHrn]
                 |l [IHlp IHln] r [IHrp IHrn]
                 |l [IHlp IHln] r [IHrp IHrn]]; cbn [to_cnf neg_to_cnf];
    split;
    repeat first [assumption | apply Hunit | apply Hunion
                 | apply distribute_nonempty].
Qed.

(** X16. [to_cnf] never produces the empty clause, so the clause sets that
    [entails] hands to [resolution] are of the kind on which [resolution]
    is complete. *)
Theorem to_cnf_no_empty_clause (F : Formula) : ∅ ∉ to_cnf F.
Proof. intros H. by apply (proj1 (to_cnf_nonempty_both F) ∅ H). Qed.

Lemma eval_cnf_empty v : eval_cnf v ∅ = true.
Proof. apply eval_cnf_true. by intros c ?%elem_of_empty. Qed.

Lemma eval_cnf_union_list v (fs : list Formula) :
  eval_cnf v (⋃ (to_cnf <$> fs)) = forallb (eval v) fs.
Proof.
  induction fs as [|f fs IH]; cbn; [apply eval_cnf_empty|].
  by rewrite eval_cnf_union, IH, (proj1 (to_cnf_eval_both v f)).
Qed.

Lemma eval_all_clauses v (B : BeliefBase) (F : Formula) :
  eval_cnf v (all_clauses B F)
  = forallb (eval v) (get_beliefs B) && negb (eval v F).
Proof.
  unfold all_clauses, get_beliefs.
  change (to_cnf (Negation F)) with (neg_to_cnf F).
  by rewrite eval_cnf_union, eval_cnf_union_list, (proj2 (to_cnf_eval_both v F)).
Qed.

Lemma all_clauses_no_empty (B : BeliefBase) (F : Formula) :
  ∅ ∉ all_clauses B F.
Proof.
  unfold all_clauses. intros [H|H]%elem_of_union.
  - apply elem_of_union_list in H as (X & HX & H).
    apply list_elem_of_fmap in HX as (f & -> & _).
    by apply (proj1 (to_cnf_nonempty_both f) ∅ H).
  - change (to_cnf (Negation F)) with (neg_to_cnf F) in H.
    by apply (proj2 (to_cnf_nonempty_both F) ∅ H).
Qed.

Lemma holds_in_forallb v (B : BeliefBase) :
  forallb (eval v) (get_beliefs B) = true ↔ holds_in v B.
Proof.
  unfold holds_in. rewrite forallb_forall.
  split; intros H f Hf; apply H; by rewrite ?list_elem_of_In in *.
Qed.

Lemma entails_iff (B : BeliefBase) (F : Formula) :
  entails B F = true ↔ ∀ v, holds_in v B → eval v F = true.
Proof.
  unfold entails. split.
  - intros H v Hv. apply resolution_sound in H.
    destruct (eval v F) eqn:E; [done|]. exfalso. apply H. exists v.
    rewrite eval_all_clauses, E, andb_true_r. by apply holds_in_forallb.
  - intros H. destruct (resolution (all_clauses B F)) eqn:E; [done|]. exfalso.
    apply resolution_complete in E as [v Hv]; [|apply all_clauses_no_empty].
    rewrite eval_all_clauses in Hv. apply andb_true_iff in Hv as [Hb HF].
    apply holds_in_forallb, H in Hb. by rewrite Hb in HF.
Qed.

(** X17. [BeliefBase.entails] decides logical consequence: it answers
    [True] exactly when every assignment that makes all beliefs true makes
    the formula true. *)
Theorem entails_semantic (B : BeliefBase) (F : Formula) :
  entails B F = true ↔ ∀ v, holds_in v B → eval v F = true.
Proof. apply entails_iff. Qed.

(** X18. The empty belief base entails exactly the tautologies. *)
Theorem entails_empty_base (F : Formula) :
  entails [] F = true ↔ tautology F.
Proof.
  rewrite entails_iff. unfold tautology, holds_in. split.
  - intros H v. apply H. by intros f ?%elem_of_nil.
  - intros H v _. apply H.
Qed.

(** X19. A belief base entails each of its beliefs, also when the belief
    is asked for in a spelling that is equal under [__eq__]. *)
Theorem entails_own_belief (B : BeliefBase) (F : Formula) :
  dict_mem F B = true → entails B F = true.
Proof.
  intros (e & He & E)%dict_mem_true. apply entails_iff. intros v Hv.
  rewrite <- (eval_eqb v _ _ E). apply Hv.
  apply list_elem_of_fmap. by exists e.
Qed.

Lemma entails_own_belief_witness :
  dict_mem (Conjunction (Atom "q") (Atom "p")) comm_base1 = true ∧
  entails comm_base1 (Conjunction (Atom "q") (Atom "p")) = true.
Proof.
  assert (H : dict_mem (Conjunction (Atom "q") (Atom "p")) comm_base1 = true)
    by reflexivity.
  split; [exact H|]. exact (entails_own_belief _ _ H).
Defined.

Lemma holds_in_dict_set v (g : Formula) (p : Z) (B : BeliefBase) :
  holds_in v (dict_set g p B) → holds_in v B.
Proof.
  unfold holds_in, get_beliefs. rewrite dict_set_keys. intros H f Hf.
  apply H. destruct (dict_mem g B); [done|]. by apply elem_of_app; left.
Qed.

(** X20. Entailment is monotone under [expand]: what the base entails it
    still entails after any belief is added or re-prioritised. *)
Theorem entails_expand (B : BeliefBase) (F g : Formula) (p : Z) :
  entails B F = true → entails (expand g p B) F = true.
Proof.
  rewrite !entails_iff. intros H v Hv. apply H.
  by apply (holds_in_dict_set v g p).
Qed.

Lemma entails_expand_witness :
  entails scen_base (Atom "q") = true ∧
  entails (expand (Negation (Atom "q")) 3 scen_base) (Atom "q") = true.
Proof.
  assert (H : entails scen_base (Atom "q") = true) by (by vm_compute).
  split; [exact H|]. exact (entails_expand _ _ (Negation (Atom "q")) 3 H).
Defined.

(** ** Contraction and revision *)

Lemma mask_filter_double (i j : nat) (b : bool) (l : BeliefBase) :
  mask_filter (2 * i + Nat.b2n b) (S j) l = mask_filter i j l.
Proof.
  revert j. induction l as [|e l IH]; intros j; cbn [mask_filter]; [done|].
  rewrite IH. replace (Nat.testbit (2 * i + Nat.b2n b) (S j)) with (Nat.testbit i j);
    [done|].
  destruct b; cbn [Nat.b2n].
  - symmetry. apply Nat.testbit_odd_succ. lia.
  - rewrite Nat.add_0_r. symmetry. apply Nat.testbit_even_succ. lia.
Qed.

(** The bit masks reach every sublist. *)
Lemma sublist_mask (s l : BeliefBase) :
  s `sublist_of` l → ∃ i, i < 2 ^ length l ∧ mask_filter i 0 l = s.
Proof.
  induction 1 as [|x s l _ (i & Hi & <-)|x s l _ (i & Hi & <-)].
  - exists 0. split; [cbn; lia|done].
  - exists (2 * i + Nat.b2n true). split; [cbn [length Nat.b2n]; rewrite Nat.pow_succ_r'; lia|].
    cbn [mask_filter]. rewrite Nat.testbit_odd_0. f_equal.
    apply mask_filter_double.
  - exists (2 * i). split; [cbn [length]; rewrite Nat.pow_succ_r'; lia|].
    cbn [mask_filter]. rewrite Nat.testbit_even_0.
    pose proof (mask_filter_double i 0 false l) as H.
    cbn [Nat.b2n] in H. by rewrite Nat.add_0_r in H.
Qed.

Lemma subsets_of_complete (B s : BeliefBase) :
  dict_wf B → s `sublist_of` B → s ∈ subsets_of B.
Proof.
  intros Hwf (i & Hi & <-)%sublist_mask. apply list_elem_of_fmap.
  exists i. split.
  - by rewrite subset_upto_mask, firstn_all.
  - apply elem_of_seq. lia.
Qed.

Lemma keys_issubset_of_sublist (s1 s2 : BeliefBase) :
  s1 `sublist_of` s2 → keys_issubset s1 s2 = true.
Proof.
  intros H. apply keys_issubset_true. intros e He. apply dict_mem_true.
  exists e. split; [by apply (sublist_subseteq _ _ H)|apply formula_eqb_refl].
Qed.

Lemma contract_not_entails (B : BeliefBase) (F : Formula) :
  dict_wf B → ¬ tautology F → entails (contract F B) F = false.
Proof.
  intros Hwf Hn. destruct (contract_cases F B) as [E|(He & Hne & ->)].
  - rewrite E. destruct (entails B F) eqn:Ee; [|done]. exfalso.
    unfold contract in E. rewrite Ee in E. cbn in E.
    assert (Hm : find_maximal_non_entailing_subsets B F ≠ []).
    { apply find_maximal_nonempty; [done|].
      assert (H : [] ∈ non_entailing_subsets B F).
      { apply non_entailing_subsets_spec.
        split; [by apply entails_nil_not_tautology|by apply subsets_of_nil]. }
      intros E'. rewrite E' in H. by apply elem_of_nil in H. }
    destruct (find_maximal_non_entailing_subsets B F) as [|m ms] eqn:Em; [done|].
    rewrite <- Em in *. apply select_best_subset_elem in Hm.
    rewrite E in Hm. apply find_maximal_spec in Hm as [_ Hm].
    apply non_entailing_subsets_spec in Hm as [Hm _]. congruence.
  - apply select_best_subset_elem in Hne.
    apply find_maximal_spec in Hne as [_ Hne].
    by apply non_entailing_subsets_spec in Hne as [].
Qed.

(** X21. Contraction by a tautology changes nothing: every subset of the
    base entails a tautology, so no candidate is left and the base stays
    as it is. *)
Theorem contract_tautology (B : BeliefBase) (F : Formula) :
  tautology F → contract F B = B.
Proof.
  intros HF.
  assert (Hall : ∀ s, entails s F = true).
  { intros s. apply entails_iff. intros v _. apply HF. }
  unfold contract. rewrite Hall. cbn.
  assert (Hne : non_entailing_subsets B F = []).
  { unfold non_entailing_subsets.
    induction (subsets_of B) as [|s l IH]; [done|].
    rewrite filter_cons, IH. rewrite decide_False; [done|]. by rewrite Hall. }
  unfold find_maximal_non_entailing_subsets. by rewrite Hne.
Qed.

Lemma contract_tautology_witness :
  tautology (Disjunction (Atom "p") (Negation (Atom "p"))) ∧
  contract (Disjunction (Atom "p") (Negation (Atom "p"))) scen_base = scen_base.
Proof.
  assert (H : tautology (Disjunction (Atom "p") (Negation (Atom "p")))).
  { intros v. cbn. by destruct (v "p"). }
  split; [exact H|]. exact (contract_tautology scen_base _ H).
Defined.

(** X22. Contraction inclusion: the entries of the contracted base are
    entries of the base, in the same order; nothing is added or moved. *)
Theorem contract_inclusion (B : BeliefBase) (F : Formula) :
  dict_wf B → contract F B `sublist_of` B.
Proof. apply contract_sublist. Qed.

Lemma contract_inclusion_witness :
  dict_wf scen_base ∧ contract (Atom "q") scen_base `sublist_of` scen_base.
Proof.
  assert (H : dict_wf scen_base) by (by vm_compute).
  split; [exact H|]. exact (contract_inclusion scen_base (Atom "q") H).
Defined.

(** X23. The contracted base is maximal: every larger part of the base,
    that is every sub-dictionary of the base that keeps all entries of the
    contracted base and at least one more, entails the formula again. *)
Theorem contract_maximal (B s : BeliefBase) (F : Formula) :
  dict_wf B → s `sublist_of` B → contract F B `sublist_of` s →
  s ≠ contract F B → entails s F = true.
Proof.
  intros Hwf Hs Hcs Hne.
  destruct (contract_cases F B) as [E|(_ & Hm & E)].
  { exfalso. apply Hne. rewrite E in Hcs |- *.
    apply (anti_symm sublist); done. }
  rewrite E in Hcs, Hne.
  apply select_best_subset_elem, find_maximal_spec in Hm as [Hmax Hsel].
  destruct (entails s F) eqn:Ee; [done|]. exfalso.
  assert (Hin : s ∈ non_entailing_subsets B F).
  { apply non_entailing_subsets_spec. split; [done|].
    by apply subsets_of_complete. }
  unfold is_maximal in Hmax. apply negb_true_iff in Hmax.
  apply not_true_iff_false in Hmax. apply Hmax.
  apply existsb_exists. exists s. split; [by apply list_elem_of_In|].
  apply andb_true_iff. split; [|by apply keys_issubset_of_sublist].
  apply negb_true_iff. unfold dict_eqb.
  replace (Nat.eqb _ _) with false; [done|]. symmetry. apply Nat.eqb_neq.
  intros Hlen. apply Hne. symmetry.
  apply sublist_full_length; [done|lia].
Qed.

Lemma contract_maximal_witness :
  dict_wf scen_base ∧ scen_base `sublist_of` scen_base ∧
  contract (Atom "q") scen_base `sublist_of` scen_base ∧
  scen_base ≠ contract (Atom "q") scen_base ∧
  entails scen_base (Atom "q") = true.
Proof.
  assert (H1 : dict_wf scen_base) by (by vm_compute).
  assert (H2 : scen_base `sublist_of` scen_base) by reflexivity.
  assert (H3 : contract (Atom "q") scen_base `sublist_of` scen_base).
  { vm_compute. apply sublist_skip, sublist_cons, sublist_nil. }
  assert (H4 : scen_base ≠ contract (Atom "q") scen_base).
  { vm_compute. discriminate. }
  split; [exact H1|]. split; [exact H2|]. split; [exact H3|].
  split; [exact H4|].
  exact (contract_maximal scen_base scen_base (Atom "q") H1 H2 H3 H4).
Defined.

(** X24. Revision success: after [revise F p] the formula [F] is a belief
    with priority [p], and the base entails it. *)
Theorem revise_success (B : BeliefBase) (F : Formula) (p : Z) :
  get_priority F (revise F p B) = p ∧ entails (revise F p B) F = true.
Proof.
  unfold revise, expand, add_belief. split.
  - unfold get_priority.
    by rewrite (dict_get_dict_set_same F F p _ (formula_eqb_refl F)).
  - apply entails_iff. intros v Hv.
    destruct (dict_mem_true F (dict_set F p (contract (Negation F) B)))
      as [(e & He & E) _].
    { apply dict_mem_dict_set_same, formula_eqb_refl. }
    rewrite <- (eval_eqb v _ _ E). apply Hv.
    apply list_elem_of_fmap. by exists e.
Qed.

(** X25. Revision keeps the base consistent: when [F] is satisfiable, one
    assignment makes every belief of the revised base true (among them
    [F]), whatever the base held before. *)
Theorem revise_consistent (B : BeliefBase) (F : Formula) (p : Z) :
  dict_wf B → ¬ tautology (Negation F) →
  ∃ v, holds_in v (revise F p B) ∧ eval v F = true.
Proof.
  intros Hwf HF.
  pose proof (contract_not_entails B (Negation F) Hwf HF) as Hc.
  unfold entails in Hc.
  apply resolution_complete in Hc as [v Hv]; [|apply all_clauses_no_empty].
  rewrite eval_all_clauses in Hv. apply andb_true_iff in Hv as [Hb Hn].
  cbn in Hn. rewrite negb_involutive in Hn. apply holds_in_forallb in Hb.
  exists v. split; [|done].
  unfold revise, expand, add_belief, holds_in, get_beliefs.
  rewrite dict_set_keys. intros f Hf.
  destruct (dict_mem F (contract (Negation F) B)); [by apply Hb|].
  apply elem_of_app in Hf as [Hf| ->%list_elem_of_singleton]; [by apply Hb|done].
Qed.

Lemma revise_consistent_witness :
  dict_wf scen_base ∧ ¬ tautology (Negation (Negation (Atom "q"))) ∧
  ∃ v, holds_in v (revise (Negation (Atom "q")) 3 scen_base) ∧
       eval v (Negation (Atom "q")) = true.
Proof.
  assert (H1 : dict_wf scen_base) by (by vm_compute).
  assert (H2 : ¬ tautology (Negation (Negation (Atom "q")))).
  { intros H. discriminate (H (λ _, false)). }
  split; [exact H1|]. split; [exact H2|].
  exact (revise_consistent scen_base (Negation (Atom "q")) 3 H1 H2).
Defined.

(** ** The parser *)

Section ParserFacts.

Variable tokens : list string.

Lemma match_token_true (expected : string) (current c : nat) :
  match_token tokens expected current = (true, c) →
  c = S current ∧ tokens !! current = Some expected.
Proof.
  unfold match_token. destruct (tokens !! current) as [t|]; [|done].
  case_bool_decide; [|done]. intros [= <-]. by subst.
Qed.

Lemma match_token_false (expected : string) (current c : nat) :
  match_token tokens expected current = (false, c) → c = current.
Proof.
  unfold match_token. destruct (tokens !! current) as [t|]; [|by intros [= <-]].
  case_bool_decide; [done|]. by intros [= <-].
Qed.

Lemma stable_bind (g h : nat → outcome Formula)
      (k : nat → Formula → nat → outcome Formula) (n : nat) :
  (∀ m, h (S m) = match g m with
                  | Ok a c => k m a c
                  | Raise message => Raise message
                  | OutOfFuel => OutOfFuel
                  end) →
  stable g n → (∀ a c, stable (λ m, k m a c) n) → stable h (S n).
Proof.
  intros Hh Hg Hk extra r. cbn [Nat.add]. rewrite !Hh.
  destruct (g n) as [a c|message|] eqn:E.
  - rewrite (Hg extra _ E) by done. apply Hk.
  - rewrite (Hg extra _ E) by done. done.
  - by intros <-.
Qed.

Lemma stable_0 (g : nat → outcome Formula) : g 0 = OutOfFuel → stable g 0.
Proof. intros H extra r. rewrite H. by intros <-. Qed.

Lemma stable_all (n : nat) :
  (∀ c, stable (λ m, parse_biconditional tokens m c) n) ∧
  (∀ l c, stable (λ m, biconditional_loop tokens m l c) n) ∧
  (∀ c, stable (λ m, parse_implication tokens m c) n) ∧
  (∀ l c, stable (λ m, implication_loop tokens m l c) n) ∧
  (∀ c, stable (λ m, parse_disjunction tokens m c) n) ∧
  (∀ l c, stable (λ m, disjunction_loop tokens m l c) n) ∧
  (∀ c, stable (λ m, parse_conjunction tokens m c) n) ∧
  (∀ l c, stable (λ m, conjunction_loop tokens m l c) n) ∧
  (∀ c, stable (λ m, parse_negation tokens m c) n) ∧
  (∀ c, stable (λ m, parse_primary tokens m c) n).
Proof.
  induction n as [|n (Hb & Hbl & Hi & Hil & Hd & Hdl & Hc & Hcl & Hn & Hp)].
  { repeat split; intros; by apply stable_0. }
  assert (Hloop : ∀ (op : string) (g : nat → nat → outcome Formula)
                    (loop : nat → Formula → nat → outcome Formula)
                    (mk : Formula → Formula → Formula),
             (∀ m l c, loop (S m) l c =
                match match_token tokens op c with
                | (true, c1) =>
                    match g m c1 with
                    | Ok r c2 => loop m (mk l r) c2
                    | Raise message => Raise message
                    | OutOfFuel => OutOfFuel
                    end
                | (false, c1) => Ok l c1
                end) →
             (∀ c, stable (λ m, g m c) n) →
             (∀ l c, stable (λ m, loop m l c) n) →
             ∀ l c, stable (λ m, loop m l c) (S n)).
  { intros op g loop mk Hdef Hg Hl l c extra r. cbn [Nat.add].
    rewrite !Hdef. destruct (match_token tokens op c) as [[] c1]; [|done].
    destruct (g n c1) as [a c2|message|] eqn:E.
    - rewrite (Hg c1 extra _ E) by done. apply Hl.
    - rewrite (Hg c1 extra _ E) by done. done.
    - by intros <-. }
  repeat split.
  - intros c. by apply (stable_bind (λ m, parse_implication tokens m c) _
                          (λ m a c', biconditional_loop tokens m a c')).
  - by apply (Hloop "<->" (parse_implication tokens) _ Biconditional).
  - intros c. by apply (stable_bind (λ m, parse_disjunction tokens m c) _
                          (λ m a c', implication_loop tokens m a c')).
  - by apply (Hloop "->" (parse_disjunction tokens) _ Implication).
  - intros c. by apply (stable_bind (λ m, parse_conjunction tokens m c) _
                          (λ m a c', disjunction_loop tokens m a c')).
  - by apply (Hloop "|" (parse_conjunction tokens) _ Disjunction).
  - intros c. by apply (stable_bind (λ m, parse_negation tokens m c) _
                          (λ m a c', conjunction_loop tokens m a c')).
  - by apply (Hloop "&" (parse_negation tokens) _ Conjunction).
  - intros c extra r. cbn [Nat.add parse_negation].
    destruct (match_token tokens "!" c) as [[] c1]; [|apply Hp].
    destruct (parse_negation tokens n c1) as [a c2|message|] eqn:E.
    + by rewrite (Hn c1 extra _ E).
    + by rewrite (Hn c1 extra _ E).
    + by intros <-.
  - intros c extra r. cbn [Nat.add parse_primary].
    destruct (match_token tokens "(" c) as [[] c1]; [|done].
    destruct (parse_biconditional tokens n c1) as [a c2|message|] eqn:E.
    + by rewrite (Hb c1 extra _ E).
    + by rewrite (Hb c1 extra _ E).
    + by intros <-.
Qed.

(** Termination: with fuel [12 * remaining + k], [k] the grammar level
    of the method, every method has ended. *)
Lemma total_all (n : nat) :
  let len := length tokens in
  (∀ c, 12 * (len - c) + 10 ≤ n →
        returns_within tokens true (parse_biconditional tokens n c) c) ∧
  (∀ l c, c ≤ len → 12 * (len - c) + 9 ≤ n →
          returns_within tokens false (biconditional_loop tokens n l c) c) ∧
  (∀ c, 12 * (len - c) + 8 ≤ n →
        returns_within tokens true (parse_implication tokens n c) c) ∧
  (∀ l c, c ≤ len → 12 * (len - c) + 7 ≤ n →
          returns_within tokens false (implication_loop tokens n l c) c) ∧
  (∀ c, 12 * (len - c) + 6 ≤ n →
        returns_within tokens true (parse_disjunction tokens n c) c) ∧
  (∀ l c, c ≤ len → 12 * (len - c) + 5 ≤ n →
          returns_within tokens false (disjunction_loop tokens n l c) c) ∧
  (∀ c, 12 * (len - c) + 4 ≤ n →
        returns_within tokens true (parse_conjunction tokens n c) c) ∧
  (∀ l c, c ≤ len → 12 * (len - c) + 3 ≤ n →
          returns_within tokens false (conjunction_loop tokens n l c) c) ∧
  (∀ c, 12 * (len - c) + 2 ≤ n →
        returns_within tokens true (parse_negation tokens n c) c) ∧
  (∀ c, 12 * (len - c) + 1 ≤ n →
        returns_within tokens true (parse_primary tokens n c) c).
Proof.
  intros len.
  induction n as [|n (Hb & Hbl & Hi & Hil & Hd & Hdl & Hc & Hcl & Hn & Hp)].
  { repeat split; intros; lia. }
  assert (Hhit : ∀ op c c1, match_token tokens op c = (true, c1) →
                            c1 = S c ∧ c < len).
  { intros op c c1 [-> H%lookup_lt_Some]%match_token_true. done. }
  assert (Hlevel : ∀ (g : nat → nat → outcome Formula)
                     (loop : nat → Formula → nat → outcome Formula)
                     (h : nat → nat → outcome Formula) (kb : nat),
             (∀ m c, h (S m) c = match g m c with
                                 | Ok a c1 => loop m a c1
                                 | Raise message => Raise message
                                 | OutOfFuel => OutOfFuel
                                 end) →
             (∀ c, 12 * (len - c) + kb ≤ n →
                   returns_within tokens true (g n c) c) →
             (∀ l c, c ≤ len → 12 * (len - c) + S kb ≤ n →
                     returns_within tokens false (loop n l c) c) →
             ∀ c, 12 * (len - c) + S (S kb) ≤ S n →
                  returns_within tokens true (h (S n) c) c).
  { intros g loop h kb Hdef Hg Hl c Hf. rewrite Hdef.
    destruct (Hg c) as [Hne Hok]; [lia|].
    destruct (g n c) as [a c1|message|]; [|by split|done].
    destruct (Hok a c1 eq_refl) as [Hlt Hle].
    destruct (Hl a c1 Hle) as [H1 H2]; [lia|]. split; [done|].
    intros f c2 Hr. destruct (H2 f c2 Hr). split; lia. }
  assert (Hloop : ∀ (op : string) (g : nat → nat → outcome Formula)
                    (loop : nat → Formula → nat → outcome Formula)
                    (mk : Formula → Formula → Formula) (kb : nat),
             (∀ m l c, loop (S m) l c =
                match match_token tokens op c with
                | (true, c1) =>
                    match g m c1 with
                    | Ok r c2 => loop m (mk l r) c2
                    | Raise message => Raise message
                    | OutOfFuel => OutOfFuel
                    end
                | (false, c1) => Ok l c1
                end) →
             (∀ c, 12 * (len - c) + kb ≤ n →
                   returns_within tokens true (g n c) c) →
             (∀ l c, c ≤ len → 12 * (len - c) + S kb ≤ n →
                     returns_within tokens false (loop n l c) c) →
             ∀ l c, c ≤ len → 12 * (len - c) + S kb ≤ S n →
                    returns_within tokens false (loop (S n) l c) c).
  { intros op g loop mk kb Hdef Hg Hl l c Hcl' Hf. rewrite Hdef.
    destruct (match_token tokens op c) as [[] c1] eqn:M.
    - apply Hhit in M as [-> Hlt].
      destruct (Hg (S c)) as [Hne Hok]; [lia|].
      destruct (g n (S c)) as [r c2|message|]; [|by split|done].
      destruct (Hok r c2 eq_refl) as [Hlt2 Hle2].
      destruct (Hl (mk l r) c2 Hle2) as [H1 H2]; [lia|]. split; [done|].
      intros f c3 Hr. destruct (H2 f c3 Hr). split; lia.
    - apply match_token_false in M as ->. split; [done|].
      intros f c2 [= <- <-]. done. }
  split; [|split; [|split; [|split; [|split; [|split; [|split; [|split;
    [|split]]]]]]]].
  - apply (Hlevel (parse_implication tokens) (biconditional_loop tokens)
                  (parse_biconditional tokens) 8); done.
  - apply (Hloop "<->" (parse_implication tokens) (biconditional_loop tokens)
                 Biconditional 8); done.
  - apply (Hlevel (parse_disjunction tokens) (implication_loop tokens)
                  (parse_implication tokens) 6); done.
  - apply (Hloop "->" (parse_disjunction tokens) (implication_loop tokens)
                 Implication 6); done.
  - apply (Hlevel (parse_conjunction tokens) (disjunction_loop tokens)
                  (parse_disjunction tokens) 4); done.
  - apply (Hloop "|" (parse_conjunction tokens) (disjunction_loop tokens)
                 Disjunction 4); done.
  - apply (Hlevel (parse_negation tokens) (conjunction_loop tokens)
                  (parse_conjunction tokens) 2); done.
  - apply (Hloop "&" (parse_negation tokens) (conjunction_loop tokens)
                 Conjunction 2); done.
  - intros c Hf. cbn [parse_negation].
    destruct (match_token tokens "!" c) as [[] c1] eqn:M.
    + apply Hhit in M as [-> Hlt].
      destruct (Hn (S c)) as [Hne Hok]; [lia|].
      destruct (parse_negation tokens n (S c)) as [a c2|message|];
        [|by split|done].
      destruct (Hok a c2 eq_refl). split; [done|].
      intros f c3 [= <- <-]. split; lia.
    + apply match_token_false in M as ->. apply Hp. lia.
  - intros c Hf. cbn [parse_primary].
    destruct (match_token tokens "(" c) as [[] c1] eqn:M.
    + apply Hhit in M as [-> Hlt].
      destruct (Hb (S c)) as [Hne Hok]; [lia|].
      destruct (parse_biconditional tokens n (S c)) as [a c2|message|];
        [|by split|done].
      destruct (Hok a c2 eq_refl).
      destruct (match_token tokens ")" c2) as [[] c3] eqn:M2; [|by split].
      apply Hhit in M2 as [-> Hlt2]. split; [done|].
      intros f c3 [= <- <-]. split; lia.
    + apply match_token_false in M as ->. unfold consume, peek.
      destruct (tokens !! c) as [t|] eqn:E; [|by split].
      apply lookup_lt_Some in E. split; [done|].
      intros f c3 [= <- <-]. split; lia.
Qed.

End ParserFacts.

(** X26. The parser terminates on every token list: with the fuel of
    [parse_tokens] the call of [parse_biconditional] has returned a formula
    or raised [ValueError], more fuel gives the same outcome, and a
    returned position lies within the tokens. *)
Theorem parse_tokens_terminates (tokens : list string) (extra : nat) :
  parse_tokens tokens ≠ OutOfFuel ∧
  parse_biconditional tokens (parse_fuel tokens + extra) 0
    = parse_tokens tokens ∧
  (∀ f c, parse_tokens tokens = Ok f c → 0 < c ≤ length tokens).
Proof.
  destruct (total_all tokens (parse_fuel tokens)) as [Hb _].
  destruct (Hb 0) as [Hne Hok]; [unfold parse_fuel; lia|].
  split; [done|]. split; [|exact Hok].
  destruct (stable_all tokens (parse_fuel tokens)) as [Hs _].
  by apply Hs.
Qed.

Section ParserRuns.

Variable tokens : list string.

Lemma match_token_hit (expected : string) (c : nat) :
  tokens !! c = Some expected →
  match_token tokens expected c = (true, S c).
Proof.
  intros H. unfold match_token. rewrite H. by rewrite bool_decide_eq_true_2.
Qed.

Lemma match_token_miss (expected : string) (c : nat) :
  tokens !! c ≠ Some expected →
  match_token tokens expected c = (false, c).
Proof.
  intros H. unfold match_token. destruct (tokens !! c) as [t|]; [|done].
  case_bool_decide; [|done]. by subst.
Qed.

Lemma drop_lookup_head (c : nat) (t : string) (more : list string) :
  drop c tokens = t :: more → tokens !! c = Some t.
Proof.
  intros H. rewrite <- (Nat.add_0_r c), <- lookup_drop. by rewrite H.
Qed.

Lemma drop_lookup_end (c : nat) : drop c tokens = [] → tokens !! c = None.
Proof.
  intros H. rewrite <- (Nat.add_0_r c), <- lookup_drop. by rewrite H.
Qed.

Lemma drop_next (c : nat) (t : string) (more : list string) :
  drop c tokens = t :: more → drop (S c) tokens = more.
Proof.
  intros H. rewrite <- (Nat.add_1_r c), <- drop_drop, H. done.
Qed.

Lemma drop_after (c : nat) (a b : list string) :
  drop c tokens = a ++ b → drop (c + length a) tokens = b.
Proof.
  intros H. rewrite <- drop_drop, H. apply drop_app_length.
Qed.

(** A grammar level: the lower level, then the loop. *)
Lemma reaches_level (g : nat → nat → outcome Formula)
      (loop : nat → Formula → nat → outcome Formula)
      (h : nat → nat → outcome Formula) (c c1 : nat) (a : Formula)
      (r : outcome Formula) :
  (∀ m c, h (S m) c = match g m c with
                      | Ok a c1 => loop m a c1
                      | Raise message => Raise message
                      | OutOfFuel => OutOfFuel
                      end) →
  reaches (λ m, g m c) (Ok a c1) → reaches (λ m, loop m a c1) r →
  reaches (λ m, h m c) r.
Proof.
  intros Hdef [n1 H1] [n2 H2]. exists (S (n1 `max` n2)).
  intros [|m] Hm; [lia|]. rewrite Hdef, H1 by lia. apply H2. lia.
Qed.

Lemma reaches_level_raise (g : nat → nat → outcome Formula)
      (loop : nat → Formula → nat → outcome Formula)
      (h : nat → nat → outcome Formula) (c : nat) (message : string) :
  (∀ m c, h (S m) c = match g m c with
                      | Ok a c1 => loop m a c1
                      | Raise message => Raise message
                      | OutOfFuel => OutOfFuel
                      end) →
  reaches (λ m, g m c) (Raise message) →
  reaches (λ m, h m c) (Raise message).
Proof.
  intros Hdef [n1 H1]. exists (S n1).
  intros [|m] Hm; [lia|]. by rewrite Hdef, H1 by lia.
Qed.

(** A loop whose next token is not its operator ends. *)
Lemma reaches_loop_exit (op : string) (g : nat → nat → outcome Formula)
      (loop : nat → Formula → nat → outcome Formula)
      (mk : Formula → Formula → Formula) (l : Formula) (c : nat) :
  (∀ m l c, loop (S m) l c =
     match match_token tokens op c with
     | (true, c1) =>
         match g m c1 with
         | Ok r c2 => loop m (mk l r) c2
         | Raise message => Raise message
         | OutOfFuel => OutOfFuel
         end
     | (false, c1) => Ok l c1
     end) →
  tokens !! c ≠ Some op → reaches (λ m, loop m l c) (Ok l c).
Proof.
  intros Hdef Hc. exists 1. intros [|m] Hm; [lia|].
  by rewrite Hdef, match_token_miss.
Qed.

(** A loop whose next token is its operator reads an operand and goes
    round again. *)
Lemma reaches_loop_step (op : string) (g : nat → nat → outcome Formula)
      (loop : nat → Formula → nat → outcome Formula)
      (mk : Formula → Formula → Formula) (l r : Formula) (c c2 : nat)
      (res : outcome Formula) :
  (∀ m l c, loop (S m) l c =
     match match_token tokens op c with
     | (true, c1) =>
         match g m c1 with
         | Ok r c2 => loop m (mk l r) c2
         | Raise message => Raise message
         | OutOfFuel => OutOfFuel
         end
     | (false, c1) => Ok l c1
     end) →
  tokens !! c = Some op →
  reaches (λ m, g m (S c)) (Ok r c2) →
  reaches (λ m, loop m (mk l r) c2) res →
  reaches (λ m, loop m l c) res.
Proof.
  intros Hdef Hc [n1 H1] [n2 H2]. exists (S (n1 `max` n2)).
  intros [|m] Hm; [lia|].
  rewrite Hdef, match_token_hit, H1 by (done || lia). apply H2. lia.
Qed.

Lemma reaches_loop_raise (op : string) (g : nat → nat → outcome Formula)
      (loop : nat → Formula → nat → outcome Formula)
      (mk : Formula → Formula → Formula) (l : Formula) (c : nat)
      (message : string) :
  (∀ m l c, loop (S m) l c =
     match match_token tokens op c with
     | (true, c1) =>
         match g m c1 with
         | Ok r c2 => loop m (mk l r) c2
         | Raise message => Raise message
         | OutOfFuel => OutOfFuel
         end
     | (false, c1) => Ok l c1
     end) →
  tokens !! c = Some op →
  reaches (λ m, g m (S c)) (Raise message) →
  reaches (λ m, loop m l c) (Raise message).
Proof.
  intros Hdef Hc [n1 H1]. exists (S n1).
  intros [|m] Hm; [lia|].
  by rewrite Hdef, match_token_hit, H1 by (done || lia).
Qed.

Lemma reaches_primary_atom (c : nat) (t : string) :
  tokens !! c = Some t → t ≠ "(" →
  reaches (λ m, parse_primary tokens m c) (Ok (Atom t) (S c)).
Proof.
  intros Hc Ht. exists 1. intros [|m] Hm; [lia|]. cbn [parse_primary].
  rewrite match_token_miss by (rewrite Hc; congruence).
  unfold consume, peek. by rewrite Hc.
Qed.

Lemma reaches_primary_end (c : nat) :
  tokens !! c = None →
  reaches (λ m, parse_primary tokens m c) (Raise "Unexpected end of input").
Proof.
  intros Hc. exists 1. intros [|m] Hm; [lia|]. cbn [parse_primary].
  rewrite match_token_miss by (by rewrite Hc).
  unfold consume, peek. by rewrite Hc.
Qed.

Lemma reaches_primary_paren (c c1 : nat) (e : Formula) :
  tokens !! c = Some "(" →
  reaches (λ m, parse_biconditional tokens m (S c)) (Ok e c1) →
  tokens !! c1 = Some ")" →
  reaches (λ m, parse_primary tokens m c) (Ok e (S c1)).
Proof.
  intros Hc [n1 H1] Hc1. exists (S n1). intros [|m] Hm; [lia|].
  cbn [parse_primary].
  by rewrite (match_token_hit "(" c Hc), H1, (match_token_hit ")" c1 Hc1) by lia.
Qed.

Lemma reaches_primary_unclosed (c c1 : nat) (e : Formula) :
  tokens !! c = Some "(" →
  reaches (λ m, parse_biconditional tokens m (S c)) (Ok e c1) →
  tokens !! c1 ≠ Some ")" →
  reaches (λ m, parse_primary tokens m c)
          (Raise "Expected closing parenthesis").
Proof.
  intros Hc [n1 H1] Hc1. exists (S n1). intros [|m] Hm; [lia|].
  cbn [parse_primary].
  by rewrite (match_token_hit "(" c Hc), H1, (match_token_miss ")" c1 Hc1) by lia.
Qed.

Lemma reaches_negation_primary (c : nat) (r : outcome Formula) :
  tokens !! c ≠ Some "!" →
  reaches (λ m, parse_primary tokens m c) r →
  reaches (λ m, parse_negation tokens m c) r.
Proof.
  intros Hc [n1 H1]. exists (S n1). intros [|m] Hm; [lia|].
  cbn [parse_negation]. rewrite (match_token_miss "!" c Hc). apply H1. lia.
Qed.

Lemma reaches_negation_bang (c c1 : nat) (f : Formula) :
  tokens !! c = Some "!" →
  reaches (λ m, parse_negation tokens m (S c)) (Ok f c1) →
  reaches (λ m, parse_negation tokens m c) (Ok (Negation f) c1).
Proof.
  intros Hc [n1 H1]. exists (S n1). intros [|m] Hm; [lia|].
  cbn [parse_negation]. by rewrite (match_token_hit "!" c Hc), H1 by lia.
Qed.

(** The four levels, one after the other. *)
Lemma lift_conjunction (c c1 : nat) (f : Formula) :
  reaches (λ m, parse_negation tokens m c) (Ok f c1) →
  tokens !! c1 ≠ Some "&" →
  reaches (λ m, parse_conjunction tokens m c) (Ok f c1).
Proof.
  intros H Hc. eapply (reaches_level (parse_negation tokens)
                         (conjunction_loop tokens)); [done|exact H|].
  by eapply (reaches_loop_exit "&" (parse_negation tokens) _ Conjunction).
Qed.

Lemma lift_disjunction (c c1 : nat) (f : Formula) :
  reaches (λ m, parse_conjunction tokens m c) (Ok f c1) →
  tokens !! c1 ≠ Some "|" →
  reaches (λ m, parse_disjunction tokens m c) (Ok f c1).
Proof.
  intros H Hc. eapply (reaches_level (parse_conjunction tokens)
                         (disjunction_loop tokens)); [done|exact H|].
  by eapply (reaches_loop_exit "|" (parse_conjunction tokens) _ Disjunction).
Qed.

Lemma lift_implication (c c1 : nat) (f : Formula) :
  reaches (λ m, parse_disjunction tokens m c) (Ok f c1) →
  tokens !! c1 ≠ Some "->" →
  reaches (λ m, parse_implication tokens m c) (Ok f c1).
Proof.
  intros H Hc. eapply (reaches_level (parse_disjunction tokens)
                         (implication_loop tokens)); [done|exact H|].
  by eapply (reaches_loop_exit "->" (parse_disjunction tokens) _ Implication).
Qed.

Lemma lift_biconditional (c c1 : nat) (f : Formula) :
  reaches (λ m, parse_implication tokens m c) (Ok f c1) →
  tokens !! c1 ≠ Some "<->" →
  reaches (λ m, parse_biconditional tokens m c) (Ok f c1).
Proof.
  intros H Hc. eapply (reaches_level (parse_implication tokens)
                         (biconditional_loop tokens)); [done|exact H|].
  by eapply (reaches_loop_exit "<->" (parse_implication tokens) _ Biconditional).
Qed.

End ParserRuns.

Lemma lift_all (tokens : list string) (c c1 : nat) (f : Formula) :
  reaches (λ m, parse_negation tokens m c) (Ok f c1) →
  (∀ t, tokens !! c1 = Some t → not_binary_operator t) →
  reaches (λ m, parse_biconditional tokens m c) (Ok f c1).
Proof.
  intros H Hnext.
  assert (Hop : ∀ op, In op ["&"; "|"; "->"; "<->"] → tokens !! c1 ≠ Some op).
  { intros op Hin E. destruct (Hnext op E) as (? & ? & ? & ?).
    cbn in Hin. naive_solver. }
  apply lift_biconditional; [|apply Hop; cbn; auto].
  apply lift_implication; [|apply Hop; cbn; auto].
  apply lift_disjunction; [|apply Hop; cbn; auto].
  apply lift_conjunction; [done|apply Hop; cbn; auto].
Qed.

Lemma reaches_in_parens (tokens : list string) (c c1 : nat) (e : Formula) :
  tokens !! c = Some "(" →
  reaches (λ m, parse_biconditional tokens m (S c)) (Ok e c1) →
  tokens !! c1 = Some ")" →
  reaches (λ m, parse_negation tokens m c) (Ok e (S c1)).
Proof.
  intros Hc H Hc1. apply reaches_negation_primary; [by rewrite Hc|].
  by apply reaches_primary_paren.
Qed.

(** Two operands with one operator between them, up to the level of the
    operator. *)
Lemma reaches_conjunction_pair (tokens : list string) (c c2 c4 : nat)
      (l r : Formula) :
  reaches (λ m, parse_negation tokens m c) (Ok l c2) →
  tokens !! c2 = Some "&" →
  reaches (λ m, parse_negation tokens m (S c2)) (Ok r c4) →
  tokens !! c4 ≠ Some "&" →
  reaches (λ m, parse_conjunction tokens m c) (Ok (Conjunction l r) c4).
Proof.
  intros Hl H2 Hr H4.
  eapply (reaches_level (parse_negation tokens)
            (conjunction_loop tokens)); [done|exact Hl|].
  eapply (reaches_loop_step tokens "&" (parse_negation tokens) _ Conjunction);
    [done|exact H2|exact Hr|].
  by eapply (reaches_loop_exit tokens "&" (parse_negation tokens) _ Conjunction).
Qed.

Lemma reaches_disjunction_pair (tokens : list string) (c c2 c4 : nat)
      (l r : Formula) :
  reaches (λ m, parse_conjunction tokens m c) (Ok l c2) →
  tokens !! c2 = Some "|" →
  reaches (λ m, parse_conjunction tokens m (S c2)) (Ok r c4) →
  tokens !! c4 ≠ Some "|" →
  reaches (λ m, parse_disjunction tokens m c) (Ok (Disjunction l r) c4).
Proof.
  intros Hl H2 Hr H4.
  eapply (reaches_level (parse_conjunction tokens)
            (disjunction_loop tokens)); [done|exact Hl|].
  eapply (reaches_loop_step tokens "|" (parse_conjunction tokens) _ Disjunction);
    [done|exact H2|exact Hr|].
  by eapply (reaches_loop_exit tokens "|" (parse_conjunction tokens) _ Disjunction).
Qed.

Lemma reaches_implication_pair (tokens : list string) (c c2 c4 : nat)
      (l r : Formula) :
  reaches (λ m, parse_disjunction tokens m c) (Ok l c2) →
  tokens !! c2 = Some "->" →
  reaches (λ m, parse_disjunction tokens m (S c2)) (Ok r c4) →
  tokens !! c4 ≠ Some "->" →
  reaches (λ m, parse_implication tokens m c) (Ok (Implication l r) c4).
Proof.
  intros Hl H2 Hr H4.
  eapply (reaches_level (parse_disjunction tokens)
            (implication_loop tokens)); [done|exact Hl|].
  eapply (reaches_loop_step tokens "->" (parse_disjunction tokens) _ Implication);
    [done|exact H2|exact Hr|].
  by eapply (reaches_loop_exit tokens "->" (parse_disjunction tokens) _ Implication).
Qed.

Lemma reaches_biconditional_pair (tokens : list string) (c c2 c4 : nat)
      (l r : Formula) :
  reaches (λ m, parse_implication tokens m c) (Ok l c2) →
  tokens !! c2 = Some "<->" →
  reaches (λ m, parse_implication tokens m (S c2)) (Ok r c4) →
  tokens !! c4 ≠ Some "<->" →
  reaches (λ m, parse_biconditional tokens m c) (Ok (Biconditional l r) c4).
Proof.
  intros Hl H2 Hr H4.
  eapply (reaches_level (parse_implication tokens)
            (biconditional_loop tokens)); [done|exact Hl|].
  eapply (reaches_loop_step tokens "<->" (parse_implication tokens) _
            Biconditional); [done|exact H2|exact Hr|].
  by eapply (reaches_loop_exit tokens "<->" (parse_implication tokens) _
               Biconditional).
Qed.

(** [parse_negation] reads the tokens of a formula back, wherever they
    stand. *)
Lemma reaches_tokens_of (f : Formula) :
  atoms_ok f = true →
  ∀ (tokens : list string) (c : nat) (rest : list string),
    drop c tokens = tokens_of f ++ rest →
    reaches (λ m, parse_negation tokens m c)
            (Ok f (c + length (tokens_of f))).
Proof.
  induction f as [n|g IH|l IHl r IHr|l IHl r IHr|l IHl r IHr|l IHl r IHr];
    cbn [atoms_ok tokens_of]; intros Hok tokens c rest Hd.
  - apply andb_true_iff in Hok as [H1%negb_true_iff%bool_decide_eq_false
                                    H2%negb_true_iff%bool_decide_eq_false].
    apply drop_lookup_head in Hd. cbn [length]. rewrite Nat.add_1_r.
    apply reaches_negation_primary; [rewrite Hd; congruence|].
    by apply reaches_primary_atom.
  - repeat (progress (cbn in Hd) || rewrite <- app_assoc in Hd).
    pose proof (drop_lookup_head tokens _ _ _ Hd) as H0.
    apply drop_next in Hd.
    pose proof (drop_lookup_head tokens _ _ _ Hd) as H1.
    apply drop_next in Hd.
    pose proof (IH Hok tokens _ _ Hd) as Hg.
    apply drop_after, drop_lookup_head in Hd.
    replace (c + length (["!"; "("] ++ tokens_of g ++ [")"]))
      with (S (S (S c) + length (tokens_of g)))
      by (repeat first [rewrite length_app | progress cbn [length app]]; lia).
    apply reaches_negation_bang; [done|].
    apply reaches_in_parens; [done| |done].
    apply lift_all; [done|].
    intros t Ht. rewrite Hd in Ht. injection Ht as <-. by repeat split.
  - apply andb_true_iff in Hok as [Hol Hor].
    repeat (progress (cbn in Hd) || rewrite <- app_assoc in Hd).
    pose proof (drop_lookup_head tokens _ _ _ Hd) as H0.
    apply drop_next in Hd.
    pose proof (IHl Hol tokens _ _ Hd) as Hl.
    apply drop_after in Hd.
    pose proof (drop_lookup_head tokens _ _ _ Hd) as H2.
    apply drop_next in Hd.
    pose proof (IHr Hor tokens _ _ Hd) as Hr.
    apply drop_after, drop_lookup_head in Hd.
    replace (c + length (["("] ++ tokens_of l ++ ["&"] ++ tokens_of r ++ [")"]))
      with (S (S (S c + length (tokens_of l)) + length (tokens_of r)))
      by (repeat first [rewrite length_app | progress cbn [length app]]; lia).
    apply reaches_in_parens; [done| |done].
    apply lift_biconditional; [|by rewrite Hd].
    apply lift_implication; [|by rewrite Hd].
    apply lift_disjunction; [|by rewrite Hd].
    eapply reaches_conjunction_pair; [exact Hl|done|exact Hr|by rewrite Hd].
  - apply andb_true_iff in Hok as [Hol Hor].
    repeat (progress (cbn in Hd) || rewrite <- app_assoc in Hd).
    pose proof (drop_lookup_head tokens _ _ _ Hd) as H0.
    apply drop_next in Hd.
    pose proof (IHl Hol tokens _ _ Hd) as Hl.
    apply drop_after in Hd.
    pose proof (drop_lookup_head tokens _ _ _ Hd) as H2.
    apply drop_next in Hd.
    pose proof (IHr Hor tokens _ _ Hd) as Hr.
    apply drop_after, drop_lookup_head in Hd.
    replace (c + length (["("] ++ tokens_of l ++ ["|"] ++ tokens_of r ++ [")"]))
      with (S (S (S c + length (tokens_of l)) + length (tokens_of r)))
      by (repeat first [rewrite length_app | progress cbn [length app]]; lia).
    apply reaches_in_parens; [done| |done].
    apply lift_biconditional; [|by rewrite Hd].
    apply lift_implication; [|by rewrite Hd].
    eapply reaches_disjunction_pair; [|done| |by rewrite Hd].
    + apply lift_conjunction; [exact Hl|by rewrite H2].
    + apply lift_conjunction; [exact Hr|by rewrite Hd].
  - apply andb_true_iff in Hok as [Hol Hor].
    repeat (progress (cbn in Hd) || rewrite <- app_assoc in Hd).
    pose proof (drop_lookup_head tokens _ _ _ Hd) as H0.
    apply drop_next in Hd.
    pose proof (IHl Hol tokens _ _ Hd) as Hl.
    apply drop_after in Hd.
    pose proof (drop_lookup_head tokens _ _ _ Hd) as H2.
    apply drop_next in Hd.
    pose proof (IHr Hor tokens _ _ Hd) as Hr.
    apply drop_after, drop_lookup_head in Hd.
    replace (c + length (["("] ++ tokens_of l ++ ["->"] ++ tokens_of r ++ [")"]))
      with (S (S (S c + length (tokens_of l)) + length (tokens_of r)))
      by (repeat first [rewrite length_app | progress cbn [length app]]; lia).
    apply reaches_in_parens; [done| |done].
    apply lift_biconditional; [|by rewrite Hd].
    eapply reaches_implication_pair; [|done| |by rewrite Hd].
    + apply lift_disjunction; [|by rewrite H2].
      apply lift_conjunction; [exact Hl|by rewrite H2].
    + apply lift_disjunction; [|by rewrite Hd].
      apply lift_conjunction; [exact Hr|by rewrite Hd].
  - apply andb_true_iff in Hok as [Hol Hor].
    repeat (progress (cbn in Hd) || rewrite <- app_assoc in Hd).
    pose proof (drop_lookup_head tokens _ _ _ Hd) as H0.
    apply drop_next in Hd.
    pose proof (IHl Hol tokens _ _ Hd) as Hl.
    apply drop_after in Hd.
    pose proof (drop_lookup_head tokens _ _ _ Hd) as H2.
    apply drop_next in Hd.
    pose proof (IHr Hor tokens _ _ Hd) as Hr.
    apply drop_after, drop_lookup_head in Hd.
    replace (c + length (["("] ++ tokens_of l ++ ["<->"] ++ tokens_of r ++ [")"]))
      with (S (S (S c + length (tokens_of l)) + length (tokens_of r)))
      by (repeat first [rewrite length_app | progress cbn [length app]]; lia).
    apply reaches_in_parens; [done| |done].
    eapply reaches_biconditional_pair; [|done| |by rewrite Hd].
    + apply lift_implication; [|by rewrite H2].
      apply lift_disjunction; [|by rewrite H2].
      apply lift_conjunction; [exact Hl|by rewrite H2].
    + apply lift_implication; [|by rewrite Hd].
      apply lift_disjunction; [|by rewrite Hd].
      apply lift_conjunction; [exact Hr|by rewrite Hd].
Qed.

Lemma reaches_parse_tokens (tokens : list string) (r : outcome Formula) :
  reaches (λ m, parse_biconditional tokens m 0) r → parse_tokens tokens = r.
Proof.
  intros [n Hn].
  destruct (total_all tokens (parse_fuel tokens)) as [Hb _].
  destruct (Hb 0) as [Hne _]; [unfold parse_fuel; lia|].
  destruct (stable_all tokens (parse_fuel tokens)) as [Hs _].
  rewrite <- (Hn (parse_fuel tokens + n)) by lia. symmetry. by apply Hs.
Qed.

Lemma parse_tokens_of_then (f : Formula) (rest : list string) :
  atoms_ok f = true →
  (∀ t, head rest = Some t → not_binary_operator t) →
  parse_tokens (tokens_of f ++ rest) = Ok f (length (tokens_of f)).
Proof.
  intros Hok Hrest. apply reaches_parse_tokens.
  pose proof (reaches_tokens_of f Hok (tokens_of f ++ rest) 0 rest eq_refl) as H.
  cbn [Nat.add] in H. apply lift_all; [done|].
  intros t Ht. apply Hrest. rewrite <- Ht, lookup_app_r, Nat.sub_diag by done.
  by destruct rest.
Qed.

(** X27. Round trip: the parser reads the fully parenthesised tokens of a
    formula back as exactly that formula and uses up all tokens, provided
    no atom is named [!] or [(]. *)
Theorem parse_tokens_of (f : Formula) :
  atoms_ok f = true →
  parse_tokens (tokens_of f) = Ok f (length (tokens_of f)).
Proof.
  intros Hok. rewrite <- (app_nil_r (tokens_of f)) at 1.
  by apply parse_tokens_of_then.
Qed.

Lemma parse_tokens_of_witness :
  atoms_ok (Biconditional (Atom "r") (Negation (Disjunction (Atom "p") (Atom "s"))))
    = true ∧
  parse_tokens
    (tokens_of (Biconditional (Atom "r")
                  (Negation (Disjunction (Atom "p") (Atom "s")))))
  = Ok (Biconditional (Atom "r") (Negation (Disjunction (Atom "p") (Atom "s"))))
       (length (tokens_of (Biconditional (Atom "r")
                  (Negation (Disjunction (Atom "p") (Atom "s")))))).
Proof.
  assert (H : atoms_ok (Biconditional (Atom "r")
                (Negation (Disjunction (Atom "p") (Atom "s")))) = true)
    by reflexivity.
  split; [exact H|]. exact (parse_tokens_of _ H).
Defined.

(** X28. Tokens after a complete formula are ignored without an error
    when the first of them is no binary operator: [parse] returns the
    formula read so far and leaves the rest unread. *)
Theorem parse_tokens_ignores_rest (f : Formula) (t : string)
        (rest : list string) :
  atoms_ok f = true → not_binary_operator t →
  parse_tokens (tokens_of f ++ t :: rest) = Ok f (length (tokens_of f)).
Proof.
  intros Hok Ht. apply parse_tokens_of_then; [done|]. by intros t' [= <-].
Qed.

Lemma parse_tokens_ignores_rest_witness :
  atoms_ok (Atom "a") = true ∧ not_binary_operator ")" ∧
  parse_tokens (tokens_of (Atom "a") ++ ")" :: ["&"; "b"])
  = Ok (Atom "a") (length (tokens_of (Atom "a"))).
Proof.
  assert (H1 : atoms_ok (Atom "a") = true) by reflexivity.
  assert (H2 : not_binary_operator ")") by (by repeat split).
  split; [exact H1|]. split; [exact H2|].
  exact (parse_tokens_ignores_rest (Atom "a") ")" ["&"; "b"] H1 H2).
Defined.

(** [ValueError] travels up through the levels. *)
Lemma raise_conjunction (tokens : list string) (c : nat) (message : string) :
  reaches (λ m, parse_negation tokens m c) (Raise message) →
  reaches (λ m, parse_conjunction tokens m c) (Raise message).
Proof.
  by apply (reaches_level_raise (parse_negation tokens) (conjunction_loop tokens)).
Qed.

Lemma raise_disjunction (tokens : list string) (c : nat) (message : string) :
  reaches (λ m, parse_conjunction tokens m c) (Raise message) →
  reaches (λ m, parse_disjunction tokens m c) (Raise message).
Proof.
  by apply (reaches_level_raise (parse_conjunction tokens)
              (disjunction_loop tokens)).
Qed.

Lemma raise_implication (tokens : list string) (c : nat) (message : string) :
  reaches (λ m, parse_disjunction tokens m c) (Raise message) →
  reaches (λ m, parse_implication tokens m c) (Raise message).
Proof.
  by apply (reaches_level_raise (parse_disjunction tokens)
              (implication_loop tokens)).
Qed.

Lemma raise_biconditional (tokens : list string) (c : nat) (message : string) :
  reaches (λ m, parse_implication tokens m c) (Raise message) →
  reaches (λ m, parse_biconditional tokens m c) (Raise message).
Proof.
  by apply (reaches_level_raise (parse_implication tokens)
              (biconditional_loop tokens)).
Qed.

Lemma reaches_negation_end (tokens : list string) (c : nat) :
  tokens !! c = None →
  reaches (λ m, parse_negation tokens m c) (Raise "Unexpected end of input").
Proof.
  intros Hc. apply reaches_negation_primary; [by rewrite Hc|].
  by apply reaches_primary_end.
Qed.

Lemma parse_tokens_dangling (f : Formula) (op : string) :
  atoms_ok f = true → In op ["&"; "|"; "->"; "<->"] →
  parse_tokens (tokens_of f ++ [op]) = Raise "Unexpected end of input".
Proof.
  intros Hok Hop. apply reaches_parse_tokens.
  set (tokens := tokens_of f ++ [op]).
  pose proof (reaches_tokens_of f Hok tokens 0 [op] eq_refl) as Hf.
  cbn [Nat.add] in Hf. set (c := length (tokens_of f)) in *.
  assert (Hc : tokens !! c = Some op).
  { unfold tokens, c. by rewrite lookup_app_r, Nat.sub_diag. }
  assert (He : tokens !! S c = None).
  { apply lookup_ge_None. unfold tokens, c. rewrite length_app. cbn. lia. }
  pose proof (reaches_negation_end tokens (S c) He) as Hn.
  cbn in Hop. destruct Hop as [<-|[<-|[<-|[<-|[]]]]].
  - apply raise_biconditional, raise_implication, raise_disjunction.
    eapply (reaches_level (parse_negation tokens) (conjunction_loop tokens));
      [done|exact Hf|].
    by eapply (reaches_loop_raise tokens "&" (parse_negation tokens) _
                 Conjunction).
  - apply raise_biconditional, raise_implication.
    eapply (reaches_level (parse_conjunction tokens) (disjunction_loop tokens));
      [done|apply lift_conjunction; [exact Hf|by rewrite Hc]|].
    eapply (reaches_loop_raise tokens "|" (parse_conjunction tokens) _
              Disjunction); [done..|].
    by apply raise_conjunction.
  - apply raise_biconditional.
    eapply (reaches_level (parse_disjunction tokens) (implication_loop tokens));
      [done| |].
    + apply lift_disjunction; [|by rewrite Hc].
      apply lift_conjunction; [exact Hf|by rewrite Hc].
    + eapply (reaches_loop_raise tokens "->" (parse_disjunction tokens) _
                Implication); [done..|].
      by apply raise_disjunction, raise_conjunction.
  - eapply (reaches_level (parse_implication tokens) (biconditional_loop tokens));
      [done| |].
    + apply lift_implication; [|by rewrite Hc].
      apply lift_disjunction; [|by rewrite Hc].
      apply lift_conjunction; [exact Hf|by rewrite Hc].
    + eapply (reaches_loop_raise tokens "<->" (parse_implication tokens) _
                Biconditional); [done..|].
      by apply raise_implication, raise_disjunction, raise_conjunction.
Qed.

Lemma parse_tokens_unclosed (f : Formula) :
  atoms_ok f = true →
  parse_tokens ("(" :: tokens_of f) = Raise "Expected closing parenthesis".
Proof.
  intros Hok. apply reaches_parse_tokens.
  set (tokens := "(" :: tokens_of f).
  pose proof (reaches_tokens_of f Hok tokens 1 []) as Hf.
  assert (He : tokens !! (1 + length (tokens_of f)) = None).
  { apply lookup_ge_None. unfold tokens. cbn. lia. }
  apply raise_biconditional, raise_implication, raise_disjunction,
    raise_conjunction.
  apply reaches_negation_primary; [done|].
  eapply reaches_primary_unclosed; [done| |by rewrite He].
  apply lift_all.
  - apply Hf. unfold tokens. cbn. by rewrite app_nil_r.
  - intros t Ht. by rewrite He in Ht.
Qed.

(** X29. Incomplete input raises [ValueError]: a formula followed by a
    binary operator and nothing more ends in "Unexpected end of input"
    (as does the empty token list), and an opening parenthesis whose
    formula is not followed by the closing one ends in "Expected closing
    parenthesis". *)
Theorem parse_tokens_errors (f : Formula) (op : string) :
  atoms_ok f = true → In op ["&"; "|"; "->"; "<->"] →
  parse_tokens [] = Raise "Unexpected end of input" ∧
  parse_tokens (tokens_of f ++ [op]) = Raise "Unexpected end of input" ∧
  parse_tokens ("(" :: tokens_of f) = Raise "Expected closing parenthesis".
Proof.
  intros Hok Hop. split; [by vm_compute|].
  split; [by apply parse_tokens_dangling|by apply parse_tokens_unclosed].
Qed.

Lemma parse_tokens_errors_witness :
  atoms_ok (Negation (Atom "p")) = true ∧ In "->" ["&"; "|"; "->"; "<->"] ∧
  parse_tokens [] = Raise "Unexpected end of input" ∧
  parse_tokens (tokens_of (Negation (Atom "p")) ++ ["->"])
    = Raise "Unexpected end of input" ∧
  parse_tokens ("(" :: tokens_of (Negation (Atom "p")))
    = Raise "Expected closing parenthesis".
Proof.
  assert (H1 : atoms_ok (Negation (Atom "p")) = true) by reflexivity.
  assert (H2 : In "->" ["&"; "|"; "->"; "<->"]) by (cbn; auto).
  split; [exact H1|]. split; [exact H2|].
  exact (parse_tokens_errors (Negation (Atom "p")) "->" H1 H2).
Defined.

Lemma parse_tokens_left_assoc (a b c : Formula) :
  atoms_ok a = true → atoms_ok b = true → atoms_ok c = true →
  parse_tokens (tokens_of a ++ "->" :: tokens_of b ++ "->" :: tokens_of c)
  = Ok (Implication (Implication a b) c)
       (length (tokens_of a ++ "->" :: tokens_of b ++ "->" :: tokens_of c)).
Proof.
  intros Hoa Hob Hoc. apply reaches_parse_tokens.
  set (tokens := tokens_of a ++ "->" :: tokens_of b ++ "->" :: tokens_of c).
  assert (Hd : drop 0 tokens
               = tokens_of a ++ "->" :: tokens_of b ++ "->" :: tokens_of c)
    by done.
  pose proof (reaches_tokens_of a Hoa tokens _ _ Hd) as Ha.
  apply drop_after in Hd.
  pose proof (drop_lookup_head tokens _ _ _ Hd) as H1. apply drop_next in Hd.
  pose proof (reaches_tokens_of b Hob tokens _ _ Hd) as Hb.
  apply drop_after in Hd.
  pose proof (drop_lookup_head tokens _ _ _ Hd) as H2. apply drop_next in Hd.
  rewrite <- (app_nil_r (tokens_of c)) in Hd.
  pose proof (reaches_tokens_of c Hoc tokens _ _ Hd) as Hc.
  apply drop_after, drop_lookup_end in Hd.
  replace (length tokens)
    with (S (S (0 + length (tokens_of a)) + length (tokens_of b))
          + length (tokens_of c))
    by (unfold tokens;
        repeat first [rewrite length_app | progress cbn [length app]]; lia).
  apply lift_biconditional; [|by rewrite Hd].
  eapply (reaches_level (parse_disjunction tokens) (implication_loop tokens));
    [done| |].
  { apply lift_disjunction; [|by rewrite H1].
    apply lift_conjunction; [exact Ha|by rewrite H1]. }
  eapply (reaches_loop_step tokens "->" (parse_disjunction tokens) _ Implication);
    [done|exact H1| |].
  { apply lift_disjunction; [|by rewrite H2].
    apply lift_conjunction; [exact Hb|by rewrite H2]. }
  eapply (reaches_loop_step tokens "->" (parse_disjunction tokens) _ Implication);
    [done|exact H2| |].
  { apply lift_disjunction; [|by rewrite Hd].
    apply lift_conjunction; [exact Hc|by rewrite Hd]. }
  eapply (reaches_loop_exit tokens "->" (parse_disjunction tokens) _ Implication);
    [done|by rewrite Hd].
Qed.

Lemma parse_tokens_levels (a b c d e : Formula) :
  atoms_ok a = true → atoms_ok b = true → atoms_ok c = true →
  atoms_ok d = true → atoms_ok e = true →
  parse_tokens (tokens_of a ++ "<->" :: tokens_of b ++ "->" :: tokens_of c
                  ++ "|" :: tokens_of d ++ "&" :: tokens_of e)
  = Ok (Biconditional a (Implication b (Disjunction c (Conjunction d e))))
       (length (tokens_of a ++ "<->" :: tokens_of b ++ "->" :: tokens_of c
                  ++ "|" :: tokens_of d ++ "&" :: tokens_of e)).
Proof.
  intros Hoa Hob Hoc Hod Hoe. apply reaches_parse_tokens.
  set (tokens := tokens_of a ++ "<->" :: tokens_of b ++ "->" :: tokens_of c
                   ++ "|" :: tokens_of d ++ "&" :: tokens_of e).
  assert (Hd : drop 0 tokens
               = tokens_of a ++ "<->" :: tokens_of b ++ "->" :: tokens_of c
                   ++ "|" :: tokens_of d ++ "&" :: tokens_of e) by done.
  pose proof (reaches_tokens_of a Hoa tokens _ _ Hd) as Ha.
  apply drop_after in Hd.
  pose proof (drop_lookup_head tokens _ _ _ Hd) as H1. apply drop_next in Hd.
  pose proof (reaches_tokens_of b Hob tokens _ _ Hd) as Hb.
  apply drop_after in Hd.
  pose proof (drop_lookup_head tokens _ _ _ Hd) as H2. apply drop_next in Hd.
  pose proof (reaches_tokens_of c Hoc tokens _ _ Hd) as Hc.
  apply drop_after in Hd.
  pose proof (drop_lookup_head tokens _ _ _ Hd) as H3. apply drop_next in Hd.
  pose proof (reaches_tokens_of d Hod tokens _ _ Hd) as Hdd.
  apply drop_after in Hd.
  pose proof (drop_lookup_head tokens _ _ _ Hd) as H4. apply drop_next in Hd.
  rewrite <- (app_nil_r (tokens_of e)) in Hd.
  pose proof (reaches_tokens_of e Hoe tokens _ _ Hd) as He.
  apply drop_after, drop_lookup_end in Hd.
  replace (length tokens)
    with (S (S (S (S (0 + length (tokens_of a)) + length (tokens_of b))
                + length (tokens_of c)) + length (tokens_of d))
          + length (tokens_of e))
    by (unfold tokens;
        repeat first [rewrite length_app | progress cbn [length app]]; lia).
  eapply reaches_biconditional_pair; [|exact H1| |by rewrite Hd].
  { apply lift_implication; [|by rewrite H1].
    apply lift_disjunction; [|by rewrite H1].
    apply lift_conjunction; [exact Ha|by rewrite H1]. }
  eapply reaches_implication_pair; [|exact H2| |by rewrite Hd].
  { apply lift_disjunction; [|by rewrite H2].
    apply lift_conjunction; [exact Hb|by rewrite H2]. }
  eapply reaches_disjunction_pair; [|exact H3| |by rewrite Hd].
  { apply lift_conjunction; [exact Hc|by rewrite H3]. }
  eapply reaches_conjunction_pair; [exact Hdd|exact H4|exact He|by rewrite Hd].
Qed.

(** X30. Grammar of the parser: a chain of implications associates to the
    left, [a -> b -> c] is read as [(a -> b) -> c]; and the operators bind
    in the order [&], [|], [->], [<->], the first the tightest:
    [a <-> b -> c | d & e] is read as [a <-> (b -> (c | (d & e)))].  The
    operands stand for any fully parenthesised formulas. *)
Theorem parse_tokens_grammar (a b c d e : Formula) :
  Forall (λ f, atoms_ok f = true) [a; b; c; d; e] →
  parse_tokens (tokens_of a ++ "->" :: tokens_of b ++ "->" :: tokens_of c)
  = Ok (Implication (Implication a b) c)
       (length (tokens_of a ++ "->" :: tokens_of b ++ "->" :: tokens_of c)) ∧
  parse_tokens (tokens_of a ++ "<->" :: tokens_of b ++ "->" :: tokens_of c
                  ++ "|" :: tokens_of d ++ "&" :: tokens_of e)
  = Ok (Biconditional a (Implication b (Disjunction c (Conjunction d e))))
       (length (tokens_of a ++ "<->" :: tokens_of b ++ "->" :: tokens_of c
                  ++ "|" :: tokens_of d ++ "&" :: tokens_of e)).
Proof.
  intros H. repeat (apply Forall_cons in H as [? H]).
  split; [by apply parse_tokens_left_assoc|by apply parse_tokens_levels].
Qed.

Lemma parse_tokens_grammar_witness :
  Forall (λ f, atoms_ok f = true)
         [Atom "a"; Atom "b"; Negation (Atom "c"); Atom "d"; Atom "e"] ∧
  parse_tokens ["a"; "->"; "b"; "->"; "!"; "("; "c"; ")"]
  = Ok (Implication (Implication (Atom "a") (Atom "b")) (Negation (Atom "c"))) 8.
Proof.
  assert (H : Forall (λ f, atoms_ok f = true)
                [Atom "a"; Atom "b"; Negation (Atom "c"); Atom "d"; Atom "e"]).
  { repeat constructor. }
  split; [exact H|].
  exact (proj1 (parse_tokens_grammar _ _ _ _ _ H)).
Defined.
